(** * The skip-list heap allocator of [os/mem_mgr/alloc.cpp]

    A shallow embedding of the allocator over a flat, word-granular memory.
    Every [free_entry], every word of the [Skiplist] object and every
    automatic temporary is a cell of one memory, and every pointer is the
    address of a cell, so that [links.lists[i]] (a pointer to a [next] slot
    or to a head) and the pointer arithmetic of the source read as they are
    written.  The target is a 32-bit machine: [sizeof(size_t)] is 4 and
    [size_t], [uintptr_t] and [unsigned] wrap modulo [2^32]. *)

From Stdlib Require Import ZArith List Lia Bool.
Import ListNotations.
Open Scope Z_scope.

(** ** Machine words *)

Definition sizeof_size_t : Z := 4.
Definition word_modulus : Z := 2 ^ 32.

(** Unsigned 32-bit wrap-around. *)
Definition wrap (x : Z) : Z := x mod word_modulus.

(** ** Constants and macros (alloc.cpp, lines 23-31) *)

Definition SRAM_SIZE : Z := 128 * 1024.
Definition NUM_FREE_LISTS : nat := 4.
Definition MIN_ALLOC_SIZE : Z := 8.
Definition MALLOC_HEADER_SIZE : Z := 2 * sizeof_size_t.
Definition ALIGNMENT : Z := sizeof_size_t.
Definition ALIGNMENT_MASK : Z := ALIGNMENT - 1.
Definition UNALIGNED (p : Z) : Z := Z.land p ALIGNMENT_MASK.
Definition ROUND_UP_TO_ALIGN (size : Z) : Z :=
  wrap (Z.land (wrap (size - 1)) (wrap (Z.lnot ALIGNMENT_MASK)) + ALIGNMENT).

(** The null pointer. *)
Definition nullptr : Z := 0.

(** ** Size classes (lines 37-48) *)

Definition which_skiplist_by_size (size : Z) : nat :=
  if 1024 <=? size then 3%nat
  else if 64 <=? size then 2%nat
  else if 16 <=? size then 1%nat
  else 0%nat.

(** ** Memory *)

(** One word per byte address; the allocator only touches word-aligned
    addresses.  Nothing is assumed about cells that were never written. *)
Definition mem : Type := Z -> Z.

Definition load (m : mem) (a : Z) : Z := m a.

Definition store (m : mem) (a v : Z) : mem :=
  fun x => if x =? a then v else m x.

(** [for (unsigned i = from; cond; i++) body], with the condition evaluated
    again before each round as in C++.  Every loop of the allocator is
    bounded by a size class, so it stops within [NUM_FREE_LISTS] rounds;
    [rounds] is the number of rounds still allowed. *)
Fixpoint for_loop (rounds : nat) (i : nat) (cond : mem -> nat -> bool)
    (body : nat -> mem -> mem) (m : mem) : mem :=
  match rounds with
  | O => m
  | S rounds' =>
      if cond m i then for_loop rounds' (S i) cond body (body i m) else m
  end.

(** Loops over list levels: one more round than there are levels, the last
    of which can only fail its condition. *)
Definition for_levels := for_loop (S NUM_FREE_LISTS).

Module Skiplist.

(** *** [struct free_entry { size_t size; free_entry *next[4]; }] *)

Definition size_slot (e : Z) : Z := e.
Definition offsetof_next : Z := sizeof_size_t.
Definition next_slot (e : Z) (i : nat) : Z :=
  wrap (e + offsetof_next + sizeof_size_t * Z.of_nat i).

Definition size (m : mem) (e : Z) : Z := load m (size_slot e).
Definition next (m : mem) (e : Z) (i : nat) : Z := load m (next_slot e i).

(** [free_entry::skiplist()] *)
Definition skiplist (m : mem) (e : Z) : nat := which_skiplist_by_size (size m e).

(** [free_entry::copy_from]: [this] is [dst], the argument is [fe]. *)
Definition copy_from (m : mem) (dst fe : Z) : mem :=
  let m := store m (size_slot dst) (size m fe) in
  for_levels 0%nat
    (fun m i => (i <? skiplist m fe)%nat)
    (fun i m => store m (next_slot dst i) (next m fe i))
    m.

(** *** [class Skiplist { size_t total_mem; size_t total_free;
        free_entry *heads[4]; }] *)

Definition total_mem_slot (this : Z) : Z := this.
Definition total_free_slot (this : Z) : Z := wrap (this + sizeof_size_t).
Definition heads_slot (this : Z) (i : nat) : Z :=
  wrap (this + 2 * sizeof_size_t + sizeof_size_t * Z.of_nat i).
Definition heads (m : mem) (this : Z) (i : nat) : Z := load m (heads_slot this i).

(** *** [struct list_walker] with its [list_links] *)

Record list_walker : Type := mk_walker {
  skiplist_num : nat;
  curr_block : Z;
  links : list Z  (* links.lists[0..3]: addresses of pointer slots *)
}.

Definition link (lw : list_walker) (i : nat) : Z := nth i (links lw) 0.

Fixpoint set_nth (l : list Z) (i : nat) (v : Z) : list Z :=
  match l, i with
  | [], _ => []
  | _ :: t, O => v :: t
  | h :: t, S i' => h :: set_nth t i' v
  end.

Definition set_link (lw : list_walker) (i : nat) (v : Z) : list_walker :=
  mk_walker (skiplist_num lw) (curr_block lw) (set_nth (links lw) i v).

Definition set_curr (lw : list_walker) (c : Z) : list_walker :=
  mk_walker (skiplist_num lw) c (links lw).

(** [list_links::list_links]: every link starts at the address of a head. *)
Definition list_links (this : Z) : list Z :=
  map (heads_slot this) (seq 0 NUM_FREE_LISTS).

(** [list_walker::list_walker] and [Skiplist::get_walker] *)
Definition get_walker (m : mem) (this : Z) (skip_list : nat) : list_walker :=
  mk_walker skip_list (heads m this skip_list) (list_links this).

Definition fits_size (m : mem) (lw : list_walker) (sz : Z) : bool :=
  sz <=? size m (curr_block lw).

(** [list_walker::advance_links]: one [if] per level. *)
Definition advance_links (m : mem) (lw : list_walker) : list_walker :=
  fold_left
    (fun lw i =>
       if load m (link lw i) <? curr_block lw then
         let next_entry := load m (link lw i) in
         set_link lw i (next_slot next_entry i)
       else lw)
    (seq 0 NUM_FREE_LISTS) lw.

(** [list_walker::move_next] *)
Definition move_next (m : mem) (lw : list_walker) : list_walker :=
  advance_links m (set_curr lw (next m (curr_block lw) (skiplist_num lw))).

(** *** Primitive mutators (lines 170-338) *)

Definition insert_and_coalesce_with_current (m : mem) (lw : list_walker)
    (entry sz : Z) : mem * list_walker :=
  let m := store m (size_slot entry) (wrap (sz + size m (curr_block lw))) in
  let curr_block_skiplist := skiplist m (curr_block lw) in
  let new_skiplist := skiplist m entry in
  let m :=
    for_levels 0%nat (fun _ i => (i <=? curr_block_skiplist)%nat)
      (fun i m =>
         let m := store m (next_slot entry i) (next m (curr_block lw) i) in
         store m (link lw i) entry)
      m in
  let m :=
    for_levels (S curr_block_skiplist) (fun _ i => (i <=? new_skiplist)%nat)
      (fun i m =>
         let m := store m (next_slot entry i) (load m (link lw i)) in
         store m (link lw i) entry)
      m in
  (m, set_curr lw entry).

Definition expand_entry (m : mem) (lw : list_walker) (entry expand_amt : Z)
    : mem :=
  let old_skiplist := skiplist m entry in
  let m := store m (size_slot entry) (wrap (size m entry + expand_amt)) in
  let new_skiplist := skiplist m entry in
  for_levels (S old_skiplist) (fun _ i => (i <=? new_skiplist)%nat)
    (fun i m =>
       let m := store m (next_slot entry i) (load m (link lw i)) in
       store m (link lw i) entry)
    m.

Definition shrink_entry (m : mem) (lw : list_walker) (entry shrink_amt : Z)
    : mem :=
  let old_skiplist := skiplist m entry in
  let m := store m (size_slot entry) (wrap (size m entry - shrink_amt)) in
  let new_skiplist := skiplist m entry in
  for_levels (S new_skiplist) (fun _ i => (i <=? old_skiplist)%nat)
    (fun i m => store m (link lw i) (next m entry i))
    m.

Definition insert_new_block (m : mem) (lw : list_walker) (new_block sz : Z)
    : mem :=
  let m := store m (size_slot new_block) sz in
  for_levels 0%nat (fun m i => (i <=? skiplist m new_block)%nat)
    (fun i m =>
       let m := store m (next_slot new_block i) (load m (link lw i)) in
       store m (link lw i) new_block)
    m.

Definition allocate_entire_block (m : mem) (lw : list_walker) : mem :=
  for_levels 0%nat (fun m i => (i <=? skiplist m (curr_block lw))%nat)
    (fun i m => store m (link lw i) (next m (curr_block lw) i))
    m.

Definition copy_and_resize (m : mem) (lw : list_walker) (dest src new_size : Z)
    : mem :=
  if new_size =? size m src then copy_from m dest src
  else
    let m := store m (size_slot dest) new_size in
    let expanding := size m src <? new_size in
    let old_skiplist := skiplist m src in
    let new_skiplist := skiplist m dest in
    if expanding then
      let m :=
        for_levels 0%nat (fun _ i => (i <=? old_skiplist)%nat)
          (fun i m =>
             let m := store m (next_slot dest i) (next m src i) in
             store m (link lw i) dest)
          m in
      for_levels (S old_skiplist) (fun _ i => (i <=? new_skiplist)%nat)
        (fun i m =>
           let m := store m (next_slot dest i) (load m (link lw i)) in
           store m (link lw i) dest)
        m
    else
      let m :=
        for_levels 0%nat (fun _ i => (i <=? new_skiplist)%nat)
          (fun i m =>
             let m := store m (next_slot dest i) (next m src i) in
             store m (link lw i) dest)
          m in
      for_levels (S new_skiplist) (fun _ i => (i <=? old_skiplist)%nat)
        (fun i m => store m (link lw i) (next m src i))
        m.

(** [free_current] has an empty body. *)
Definition free_current (m : mem) (lw : list_walker) (sz : Z) : mem := m.

Section AutomaticStorage.

(** Address of the automatic [free_entry] that [allocate_current] and
    [resize_allocated_block] declare ([temp_entry], [temp]).  Its cells hold
    whatever the stack held before: the copy constructor is [copy_from] on
    an object that was never initialised. *)
Variable temp : Z.

Definition allocate_current (m : mem) (lw : list_walker) (sz : Z) : Z * mem :=
  if size m (curr_block lw) <? wrap (sz + MIN_ALLOC_SIZE) then
    let m := allocate_entire_block m lw in
    (curr_block lw, m)
  else
    let m := copy_from m temp (curr_block lw) in
    let curr_block_int := curr_block lw in
    let new_entry := wrap (curr_block_int + sz) in
    let m := copy_and_resize m lw new_entry temp (wrap (size m temp - sz)) in
    (curr_block lw, m).

Definition resize_allocated_block (m : mem) (lw : list_walker)
    (allocated_block old_size new_size : Z) : mem * list_walker :=
  let ab_int := allocated_block in
  let curr_block_int := curr_block lw in
  if negb (wrap (ab_int + old_size) =? curr_block_int) then (m, lw)
  else if new_size <? old_size then
    let size_diff := wrap (old_size - new_size) in
    let m := copy_from m temp (curr_block lw) in
    let new_block := wrap (curr_block_int - size_diff) in
    let m :=
      copy_and_resize m lw new_block temp (wrap (size m temp - size_diff)) in
    (m, set_curr lw new_block)
  else
    let size_diff := wrap (new_size - old_size) in
    if wrap (size m (curr_block lw) - size_diff) <? MIN_ALLOC_SIZE then
      (allocate_entire_block m lw, lw)
    else
      let m := copy_from m temp (curr_block lw) in
      let new_block := wrap (curr_block_int + size_diff) in
      let m :=
        copy_and_resize m lw new_block temp (wrap (size m temp - size_diff)) in
      (m, set_curr lw new_block).

(** *** [Skiplist::malloc] (lines 398-414)

    The [while] loops follow pointers read from memory and need not stop on
    a cyclic list: [fuel] bounds the number of blocks visited and [None]
    means the bound was reached. *)
Fixpoint malloc_walk (fuel : nat) (m : mem) (lw : list_walker) (sz : Z)
    : option (Z * mem) :=
  match fuel with
  | O => None
  | S fuel' =>
      if curr_block lw =? nullptr then Some (nullptr, m)
      else if fits_size m lw sz then Some (allocate_current m lw sz)
      else malloc_walk fuel' m (move_next m lw) sz
  end.

Definition malloc (fuel : nat) (m : mem) (this : Z) (sz : Z)
    : option (Z * mem) :=
  let skip_list := which_skiplist_by_size sz in
  let lw := get_walker m this skip_list in
  malloc_walk fuel m lw sz.

(** [while (lw.curr_block && (lw.curr_block <= p)) lw.move_next();], the
    loop that opens both [free] and [resize]. *)
Fixpoint walk_past (fuel : nat) (m : mem) (lw : list_walker) (p : Z)
    : option list_walker :=
  match fuel with
  | O => None
  | S fuel' =>
      if negb (curr_block lw =? nullptr) && (curr_block lw <=? p)
      then walk_past fuel' m (move_next m lw) p
      else Some lw
  end.

(** *** [Skiplist::resize] (lines 488-545) *)
Definition resize (fuel : nat) (m : mem) (this : Z)
    (old_size new_size pointer_to_resize : Z) : option (Z * mem) :=
  let p := pointer_to_resize in
  let old_skip_list := which_skiplist_by_size old_size in
  let expanding := old_size <? new_size in
  match walk_past fuel m (get_walker m this old_skip_list) p with
  | None => None
  | Some lw =>
      let p_int := p in
      let curr_block_int := curr_block lw in
      if negb (curr_block lw =? nullptr)
         && (wrap (p_int + old_size) =? curr_block_int)
      then
        let '(m, _) := resize_allocated_block m lw p old_size new_size in
        Some (p, m)
      else if expanding then Some (nullptr, m)
      else
        let size_diff := wrap (old_size - new_size) in
        if size_diff <? MIN_ALLOC_SIZE then Some (p, m)
        else
          let new_block_int := wrap (p_int + new_size) in
          Some (p, insert_new_block m lw new_block_int size_diff)
  end.

End AutomaticStorage.

(** *** [Skiplist::free] (lines 416-486) *)
Definition free (fuel : nat) (m : mem) (this : Z) (sz pointer_to_free : Z)
    : option mem :=
  let p := pointer_to_free in
  match walk_past fuel m (get_walker m this 0%nat) p with
  | None => None
  | Some lw =>
      let prev_int := wrap (link lw 0%nat - offsetof_next) in
      let prev := prev_int in
      let p_int := p in
      let curr_block_int := curr_block lw in
      if negb (curr_block lw =? nullptr) then
        if wrap (prev_int + size m prev) =? p_int then
          if wrap (p_int + sz) =? curr_block_int then
            let prev_skip_list := skiplist m prev in
            let m := store m (size_slot prev) (wrap (size m prev + sz)) in
            let m :=
              store m (size_slot prev)
                (wrap (size m prev + size m (curr_block lw))) in
            let curr_block_skip_list := skiplist m (curr_block lw) in
            let new_skip_list := skiplist m prev in
            let m :=
              for_levels 0%nat (fun _ i => (i <=? curr_block_skip_list)%nat)
                (fun i m => store m (next_slot prev i) (next m (curr_block lw) i))
                m in
            let m :=
              for_levels (S curr_block_skip_list)
                (fun _ i => (i <=? new_skip_list)%nat)
                (fun i m => store m (next_slot prev i) (load m (link lw i)))
                m in
            let m :=
              for_levels (S prev_skip_list)
                (fun _ i => (i <=? new_skip_list)%nat)
                (fun i m => store m (link lw i) prev)
                m in
            Some m
          else Some (expand_entry m lw prev sz)
        else if wrap (p_int + sz) =? curr_block_int then
          Some (fst (insert_and_coalesce_with_current m lw p sz))
        else Some (insert_new_block m lw p sz)
      else if wrap (prev_int + sz) =? p_int then
        Some (expand_entry m lw prev sz)
      else Some (insert_new_block m lw p sz)
  end.

End Skiplist.

(** ** The sized-header layer (lines 547-687) *)

Section Facade.

(** Address of the static [Skiplist free_list_start]. *)
Variable free_list_start : Z.

(** Address of the automatic [free_entry] temporaries of the index. *)
Variable temp : Z.

(** [size_t *q; q[i]] *)
Definition word_at (q : Z) (i : Z) : Z := wrap (q + sizeof_size_t * i).

Definition rounded (req_size : Z) : Z :=
  wrap (ROUND_UP_TO_ALIGN req_size + MALLOC_HEADER_SIZE).

Definition _malloc (fuel : nat) (req_size : Z) (m : mem) : option (Z * mem) :=
  if req_size =? 0 then Some (nullptr, m)
  else
    let sz := rounded req_size in
    match Skiplist.malloc temp fuel m free_list_start sz with
    | None => None
    | Some (p, m) =>
        let m := store m (word_at p 0) sz in
        let p_int := p in
        Some (wrap (p_int + MALLOC_HEADER_SIZE), m)
    end.

Definition _calloc (fuel : nat) (req_size : Z) (m : mem) : option (Z * mem) :=
  if req_size =? 0 then Some (nullptr, m)
  else
    let sz := rounded req_size in
    match Skiplist.malloc temp fuel m free_list_start sz with
    | None => None
    | Some (p, m) =>
        if p =? nullptr then Some (nullptr, m)
        else
          let count := sz / ALIGNMENT in
          let m :=
            fold_left (fun m i => store m (word_at p (Z.of_nat i)) 0)
              (seq 1 (Z.to_nat count - 1)) m in
          let m := store m (word_at p 0) sz in
          let p_int := p in
          Some (wrap (p_int + MALLOC_HEADER_SIZE), m)
    end.

Definition _free (fuel : nat) (p : Z) (m : mem) : option mem :=
  if negb (UNALIGNED p =? 0) || (p =? nullptr) then Some m
  else
    let p_int := p in
    let q := wrap (p_int - MALLOC_HEADER_SIZE) in
    let sz := load m (word_at q 0) in
    Skiplist.free fuel m free_list_start sz q.

Definition _realloc (fuel : nat) (req_size : Z) (p : Z) (m : mem)
    : option (Z * mem) :=
  if p =? nullptr then _malloc fuel req_size m
  else if req_size =? 0 then
    match _free fuel p m with
    | None => None
    | Some m => Some (nullptr, m)
    end
  else if negb (UNALIGNED p =? 0) then Some (p, m)
  else
    let p_int := p in
    let q := wrap (p_int - MALLOC_HEADER_SIZE) in
    let old_size := load m (word_at q 0) in
    let new_size := rounded req_size in
    if new_size =? old_size then Some (p, m)
    else
      match Skiplist.resize temp fuel m free_list_start old_size new_size q with
      | None => None
      | Some (ret, m) =>
          if ret =? nullptr then
            match Skiplist.malloc temp fuel m free_list_start new_size with
            | None => None
            | Some (ret, m) =>
                if ret =? nullptr then Some (nullptr, m)
                else
                  let m := store m (word_at ret 0) new_size in
                  let copy_size :=
                    if new_size <? old_size then new_size else old_size in
                  let count :=
                    wrap (copy_size - MALLOC_HEADER_SIZE) / sizeof_size_t in
                  let ret_int := ret in
                  let r := wrap (ret_int + MALLOC_HEADER_SIZE) in
                  let c := p in
                  let m :=
                    fold_left
                      (fun m i =>
                         store m (word_at r (Z.of_nat i))
                           (load m (word_at c (Z.of_nat i))))
                      (seq 0 (Z.to_nat count)) m in
                  match Skiplist.free fuel m free_list_start old_size q with
                  | None => None
                  | Some m => Some (r, m)
                  end
            end
          else Some (ret, m)
      end.

End Facade.

(** ** Reading the index back *)

(** The blocks of list [level], in list order, as [(address, size)] pairs:
    follow [next[level]] from the head until null.  [fuel] bounds the
    number of blocks read. *)
Fixpoint list_from (fuel : nat) (m : mem) (level : nat) (e : Z)
    : list (Z * Z) :=
  match fuel with
  | O => []
  | S fuel' =>
      if e =? nullptr then []
      else (e, Skiplist.size m e)
             :: list_from fuel' m level (Skiplist.next m e level)
  end.

Definition free_list (fuel : nat) (m : mem) (this : Z) (level : nat)
    : list (Z * Z) :=
  list_from fuel m level (Skiplist.heads m this level).

Definition sum_sizes (l : list (Z * Z)) : Z :=
  fold_right (fun b acc => snd b + acc) 0 l.

(** Every free block is on list 0. *)
Definition free_bytes (fuel : nat) (m : mem) (this : Z) : Z :=
  sum_sizes (free_list fuel m this 0%nat).

(** A live block carries its total size in its first word. *)
Definition live_bytes (m : mem) (blocks : list Z) : Z :=
  fold_right (fun b acc => load m b + acc) 0 blocks.

(** ** Building concrete heaps *)

(** Write a free header: size and the forward pointers that are given. *)
Definition put_free (e sz : Z) (nexts : list Z) (m : mem) : mem :=
  let m := store m (Skiplist.size_slot e) sz in
  fold_left
    (fun m i => store m (Skiplist.next_slot e i) (nth i nexts 0))
    (seq 0 (length nexts)) m.

Definition put_heads (this : Z) (hs : list Z) (m : mem) : mem :=
  fold_left
    (fun m i => store m (Skiplist.heads_slot this i) (nth i hs 0))
    (seq 0 (length hs)) m.

(** Layout used by the worked heaps: the [Skiplist] object in [.bss], the
    arena above it, the temporaries near the top of the stack. *)
Definition FLS : Z := 0x20000100.
Definition ARENA : Z := 0x20001000.
Definition STACK : Z := 0x2001FF00.
Definition enough : nat := 16.

(** No free block at all: the four heads are null.  This is also the index
    [alloc_init] leaves behind, its linking code being commented out. *)
Definition empty_index (bg : mem) : mem := put_heads FLS [0; 0; 0; 0] bg.

(** A live block of 48 bytes at the start of a 4096-byte arena, followed by
    one free block of 4048 bytes that is on all four lists. *)
Definition live_then_free (bg : mem) : mem :=
  put_heads FLS [ARENA + 48; ARENA + 48; ARENA + 48; ARENA + 48]
    (put_free (ARENA + 48) 4048 [0; 0; 0; 0] (store bg ARENA 48)).

(** A live block of 48 bytes at the start of the arena and no free block. *)
Definition live_only (bg : mem) : mem :=
  put_heads FLS [0; 0; 0; 0] (store bg ARENA 48).

(** Free 8 bytes at [ARENA], live 16 bytes, free 24 bytes at [ARENA + 24],
    then a live block up to the end of the 4096-byte arena. *)
Definition small_then_fit (bg : mem) : mem :=
  put_heads FLS [ARENA; ARENA + 24; 0; 0]
    (put_free ARENA 8 [ARENA + 24]
       (put_free (ARENA + 24) 24 [0; 0]
          (store (store bg (ARENA + 8) 16) (ARENA + 48) 4048))).

(** Four free blocks, none adjacent: 32 bytes at [+0], 8 bytes at [+64],
    8 bytes at [+96], 32 bytes at [+128].  List 0 holds all four, list 1
    the two of 32 bytes. *)
Definition two_small_between (bg : mem) : mem :=
  put_heads FLS [ARENA; ARENA; 0; 0]
    (put_free ARENA 32 [ARENA + 64; ARENA + 128]
       (put_free (ARENA + 64) 8 [ARENA + 96]
          (put_free (ARENA + 96) 8 [ARENA + 128]
             (put_free (ARENA + 128) 32 [0; 0] bg)))).

(** Two free blocks of 2048 bytes, at [+0] and [+4096], both on all four
    lists. *)
Definition two_large (bg : mem) : mem :=
  put_heads FLS [ARENA; ARENA; ARENA; ARENA]
    (put_free ARENA 2048
       [ARENA + 4096; ARENA + 4096; ARENA + 4096; ARENA + 4096]
       (put_free (ARENA + 4096) 2048 [0; 0; 0; 0] bg)).

(** The first block of list [i] whose address is at least [c], or null. *)
Definition first_at_or_past (fuel : nat) (m : mem) (this : Z) (i : nat)
    (c : Z) : Z :=
  match find (fun b => c <=? fst b) (free_list fuel m this i) with
  | Some b => fst b
  | None => nullptr
  end.

(** The walker property of the specification: every link holds the first
    block of its list at or past [curr]. *)
Definition links_caught_up (fuel : nat) (m : mem) (this : Z)
    (lw : Skiplist.list_walker) : Prop :=
  forall i, (i < NUM_FREE_LISTS)%nat ->
    load m (Skiplist.link lw i)
    = first_at_or_past fuel m this i (Skiplist.curr_block lw).

(** ** [alloc_init] (lines 550-563)

    The linker symbols [_DATA_RAM_START] and [_ALLOCABLE_MEM] enter by
    their addresses, the static [ALLOCABLE_MEM_SIZE] by the address of its
    word.  The body is the one assignment: the code that would link the
    arena into the index is commented out in the source. *)
Definition alloc_init (DATA_RAM_START ALLOCABLE_MEM ALLOCABLE_MEM_SIZE : Z)
    (m : mem) : mem :=
  store m ALLOCABLE_MEM_SIZE
    (wrap (wrap (DATA_RAM_START + SRAM_SIZE) - ALLOCABLE_MEM)).

(** A memory whose cells all hold zero, for worked heaps. *)
Definition blank : mem := fun _ => 0.

(** [a] lies outside the byte range from [lo] up to, not including, [hi]. *)
Definition outside (a lo hi : Z) : Prop := a < lo \/ hi <= a.

(** Two addresses that differ, kept as a named fact. *)
Definition differ (x y : Z) : Prop := x <> y.

(** * Properties *)

(** ** Words, loads and stores *)

Lemma wrap_small (x : Z) : 0 <= x < word_modulus -> wrap x = x.
Proof. intros H. unfold wrap. apply Z.mod_small. exact H. Qed.

Lemma wrap_range (x : Z) : 0 <= wrap x < word_modulus.
Proof. unfold wrap. apply Z.mod_pos_bound. reflexivity. Qed.

Lemma wrap_wrap (x : Z) : wrap (wrap x) = wrap x.
Proof. apply wrap_small, wrap_range. Qed.

Lemma load_store_same (m : mem) (a v : Z) : load (store m a v) a = v.
Proof. unfold load, store. now rewrite Z.eqb_refl. Qed.

Lemma load_store_other (m : mem) (a b v : Z) :
  b <> a -> load (store m a v) b = load m b.
Proof.
  intros H. unfold load, store.
  destruct (Z.eqb_spec b a) as [E | _]; [contradiction | reflexivity].
Qed.

(** A loop whose body leaves a cell alone leaves it alone. *)
Lemma for_loop_frame (a : Z) (cond : mem -> nat -> bool)
    (body : nat -> mem -> mem) :
  (forall i m, load (body i m) a = load m a) ->
  forall rounds i m, load (for_loop rounds i cond body m) a = load m a.
Proof.
  intros Hbody rounds.
  induction rounds as [| rounds IH]; intros i m; simpl.
  - reflexivity.
  - destruct (cond m i); [| reflexivity].
    rewrite IH. apply Hbody.
Qed.

Lemma word_modulus_eq : word_modulus = 4294967296.
Proof. reflexivity. Qed.

Lemma next_slot_small (e : Z) (i : nat) :
  0 <= e -> e + 4 + 4 * Z.of_nat i < word_modulus ->
  Skiplist.next_slot e i = e + 4 + 4 * Z.of_nat i.
Proof.
  intros H0 H1. unfold Skiplist.next_slot, Skiplist.offsetof_next, sizeof_size_t.
  apply wrap_small. lia.
Qed.

Lemma for_loop_cond_inv (P : mem -> Prop) (cond : mem -> nat -> bool)
    (c : nat -> bool) (body : nat -> mem -> mem) :
  (forall i m, P m -> c i = true -> P (body i m)) ->
  (forall i m, P m -> cond m i = c i) ->
  forall rounds i m, P m ->
    for_loop rounds i cond body m = for_loop rounds i (fun _ => c) body m.
Proof.
  intros Hbody Hcond rounds.
  induction rounds as [| rounds IH]; intros i m HP; simpl.
  - reflexivity.
  - rewrite (Hcond i m HP). destruct (c i) eqn:Hc; [| reflexivity].
    apply IH. apply Hbody; assumption.
Qed.

Lemma for_loop_frame_while (a : Z) (c : nat -> bool)
    (body : nat -> mem -> mem) :
  (forall i m, c i = true -> load (body i m) a = load m a) ->
  forall rounds i m,
    load (for_loop rounds i (fun _ => c) body m) a = load m a.
Proof.
  intros Hbody rounds.
  induction rounds as [| rounds IH]; intros i m; simpl.
  - reflexivity.
  - destruct (c i) eqn:Hc; [| reflexivity].
    rewrite IH. apply Hbody. exact Hc.
Qed.

(** The rounds allowed to a loop over levels are enough: a loop whose
    condition fails from index [NUM_FREE_LISTS] on ends by its condition,
    and more rounds change nothing. *)
Lemma for_loop_rounds_enough (cond : mem -> nat -> bool)
    (body : nat -> mem -> mem) :
  (forall m i, (NUM_FREE_LISTS <= i)%nat -> cond m i = false) ->
  forall rounds extra i m,
    (S NUM_FREE_LISTS <= i + rounds)%nat ->
    for_loop (rounds + extra) i cond body m = for_loop rounds i cond body m.
Proof.
  intros Hstop rounds.
  induction rounds as [| rounds IH]; intros extra i m Hi.
  - destruct extra as [| extra]; simpl; [reflexivity |].
    rewrite Hstop; [reflexivity |]. unfold NUM_FREE_LISTS in *. lia.
  - simpl. destruct (cond m i); [| reflexivity].
    apply IH. lia.
Qed.

(** The loops over levels end by their own condition: with a bound that is
    a size class, more rounds than [for_levels] allows change nothing. *)
Lemma for_levels_rounds_enough (lev : mem -> nat) (strict : bool)
    (body : nat -> mem -> mem) (extra i : nat) (m : mem) :
  (forall m, (lev m < NUM_FREE_LISTS)%nat) ->
  for_loop (S NUM_FREE_LISTS + extra) i
    (fun m i => if strict then (i <? lev m)%nat else (i <=? lev m)%nat)
    body m
  = for_levels i
      (fun m i => if strict then (i <? lev m)%nat else (i <=? lev m)%nat)
      body m.
Proof.
  intros Hlev. unfold for_levels.
  apply for_loop_rounds_enough; [| lia].
  intros m0 i0 Hi0. specialize (Hlev m0).
  destruct strict; [apply Nat.ltb_ge | apply Nat.leb_gt]; lia.
Qed.

(** ** Proof automation for loads after stores *)

Ltac words := unfold MIN_ALLOC_SIZE in *; rewrite ?word_modulus_eq in *.

Ltac slots :=
  unfold Skiplist.next, Skiplist.size, Skiplist.size_slot in *;
  words;
  rewrite ?next_slot_small in *
    by (rewrite ?word_modulus_eq; simpl Z.of_nat; lia);
  simpl Z.of_nat in *.

(** Addresses differ: a recorded fact, or arithmetic from one range fact. *)
Ltac neq :=
  match goal with
  | H : differ ?x ?y |- ?x <> ?y => exact H
  | H : differ ?y ?x |- ?x <> ?y => exact (not_eq_sym H)
  | H : outside ?y _ _ |- _ <> ?y => solve [unfold outside in H; lia]
  | H : outside ?x _ _ |- ?x <> _ => solve [unfold outside in H; lia]
  | |- _ => lia
  end.

Ltac mem_simpl :=
  repeat (rewrite load_store_same || rewrite load_store_other by neq).

(** The range and distinctness facts of the four links, one by one. *)
Ltac link_facts Hout Hdist :=
  pose proof (Hout 0%nat ltac:(unfold NUM_FREE_LISTS; lia)) as [? ?];
  pose proof (Hout 1%nat ltac:(unfold NUM_FREE_LISTS; lia)) as [? ?];
  pose proof (Hout 2%nat ltac:(unfold NUM_FREE_LISTS; lia)) as [? ?];
  pose proof (Hout 3%nat ltac:(unfold NUM_FREE_LISTS; lia)) as [? ?];
  pose proof (Hdist 0%nat 1%nat ltac:(unfold NUM_FREE_LISTS; lia)
              : differ _ _);
  pose proof (Hdist 0%nat 2%nat ltac:(unfold NUM_FREE_LISTS; lia)
              : differ _ _);
  pose proof (Hdist 0%nat 3%nat ltac:(unfold NUM_FREE_LISTS; lia)
              : differ _ _);
  pose proof (Hdist 1%nat 2%nat ltac:(unfold NUM_FREE_LISTS; lia)
              : differ _ _);
  pose proof (Hdist 1%nat 3%nat ltac:(unfold NUM_FREE_LISTS; lia)
              : differ _ _);
  pose proof (Hdist 2%nat 3%nat ltac:(unfold NUM_FREE_LISTS; lia)
              : differ _ _);
  clear Hout Hdist.

(** ** The size classes *)

Lemma which_skiplist_by_size_lt (s : Z) :
  (which_skiplist_by_size s < NUM_FREE_LISTS)%nat.
Proof.
  unfold which_skiplist_by_size, NUM_FREE_LISTS.
  destruct (1024 <=? s); [lia |].
  destruct (64 <=? s); [lia |].
  destruct (16 <=? s); lia.
Qed.

Lemma which_skiplist_by_size_mono (s t : Z) :
  s <= t -> (which_skiplist_by_size s <= which_skiplist_by_size t)%nat.
Proof.
  intros Hst. unfold which_skiplist_by_size.
  destruct (Z.leb_spec 1024 s); destruct (Z.leb_spec 1024 t); try lia;
  destruct (Z.leb_spec 64 s); destruct (Z.leb_spec 64 t); try lia;
  destruct (Z.leb_spec 16 s); destruct (Z.leb_spec 16 t); lia.
Qed.

Lemma level_cases (s : Z) :
  (which_skiplist_by_size s = 0%nat /\ s < 16)
  \/ (which_skiplist_by_size s = 1%nat /\ 16 <= s < 64)
  \/ (which_skiplist_by_size s = 2%nat /\ 64 <= s < 1024)
  \/ (which_skiplist_by_size s = 3%nat /\ 1024 <= s).
Proof.
  unfold which_skiplist_by_size.
  destruct (Z.leb_spec 1024 s); [lia |].
  destruct (Z.leb_spec 64 s); [lia |].
  destruct (Z.leb_spec 16 s); lia.
Qed.

Lemma set_nth_length (l : list Z) (i : nat) (v : Z) :
  length (Skiplist.set_nth l i v) = length l.
Proof.
  revert i. induction l as [| h t IH]; intros [| i]; simpl; auto.
Qed.

Lemma advance_links_length (m : mem) (lw : Skiplist.list_walker) :
  length (Skiplist.links (Skiplist.advance_links m lw))
  = length (Skiplist.links lw).
Proof.
  unfold Skiplist.advance_links.
  generalize (seq 0 NUM_FREE_LISTS). intros l. revert lw.
  induction l as [| i l IH]; intros lw; simpl; [reflexivity |].
  rewrite IH.
  destruct (load m (Skiplist.link lw i) <? Skiplist.curr_block lw);
    [apply set_nth_length | reflexivity].
Qed.

(** C10.  The classifier returns a level below [NUM_FREE_LISTS] for every
    size and is monotone non-decreasing; hence every index [i <= level(size)]
    that a mutator uses on [next[i]] or [links[i]] is below
    [NUM_FREE_LISTS], and it addresses an existing element of the walker's
    four links, at construction and after any [move_next]. *)
Theorem which_skiplist_by_size_bounded_monotone :
  (forall s, (which_skiplist_by_size s <= 3)%nat
             /\ (which_skiplist_by_size s < NUM_FREE_LISTS)%nat)
  /\ (forall s t, s <= t ->
        (which_skiplist_by_size s <= which_skiplist_by_size t)%nat)
  /\ (forall s i, (i <= which_skiplist_by_size s)%nat ->
        (i < NUM_FREE_LISTS)%nat
        /\ forall m this lvl,
             let lw := Skiplist.get_walker m this lvl in
             (i < length (Skiplist.links lw))%nat
             /\ (i < length (Skiplist.links (Skiplist.move_next m lw)))%nat).
Proof.
  split; [| split].
  - intros s. pose proof (which_skiplist_by_size_lt s) as H.
    unfold NUM_FREE_LISTS in *. lia.
  - apply which_skiplist_by_size_mono.
  - intros s i Hi.
    pose proof (which_skiplist_by_size_lt s) as H.
    assert (Hlt : (i < NUM_FREE_LISTS)%nat) by lia.
    split; [exact Hlt |].
    intros m this lvl lw. unfold Skiplist.move_next.
    rewrite advance_links_length.
    change (length (Skiplist.links lw)) with NUM_FREE_LISTS.
    split; exact Hlt.
Qed.

Lemma which_skiplist_by_size_bounded_monotone_witness :
  (which_skiplist_by_size 16 <= which_skiplist_by_size 1024)%nat
  /\ (2 < NUM_FREE_LISTS)%nat.
Proof.
  split.
  - apply (proj1 (proj2 which_skiplist_by_size_bounded_monotone) 16 1024).
    lia.
  - apply (proj2 (proj2 which_skiplist_by_size_bounded_monotone) 64 2%nat).
    vm_compute. lia.
Defined.

(** ** Failure paths write nothing *)

Lemma allocate_current_returns_curr (temp : Z) (m : mem)
    (lw : Skiplist.list_walker) (sz : Z) :
  fst (Skiplist.allocate_current temp m lw sz) = Skiplist.curr_block lw.
Proof.
  unfold Skiplist.allocate_current.
  destruct (Skiplist.size m (Skiplist.curr_block lw)
            <? wrap (sz + MIN_ALLOC_SIZE)); reflexivity.
Qed.

(** [Skiplist::malloc] returns null only by running off the end of its
    list, and then it has not written anything. *)
Lemma malloc_walk_null (temp : Z) (fuel : nat) :
  forall m lw sz m',
    Skiplist.malloc_walk temp fuel m lw sz = Some (nullptr, m') -> m' = m.
Proof.
  induction fuel as [| fuel IH]; intros m lw sz m' H; simpl in H.
  - discriminate.
  - destruct (Z.eqb_spec (Skiplist.curr_block lw) nullptr) as [E | NE].
    + now inversion H.
    + destruct (Skiplist.fits_size m lw sz).
      * pose proof (allocate_current_returns_curr temp m lw sz) as Hc.
        destruct (Skiplist.allocate_current temp m lw sz) as [r mr].
        simpl in Hc. inversion H. congruence.
      * eapply IH. exact H.
Qed.

Lemma malloc_null (temp : Z) (fuel : nat) (m : mem) (this sz : Z) (m' : mem) :
  Skiplist.malloc temp fuel m this sz = Some (nullptr, m') -> m' = m.
Proof. unfold Skiplist.malloc. apply malloc_walk_null. Qed.

(** [Skiplist::resize] of a non-null block returns null only on the branch
    that refuses an expansion, which writes nothing. *)
Lemma resize_null (temp : Z) (fuel : nat) (m : mem)
    (this old_size new_size p : Z) (m' : mem) :
  p <> nullptr ->
  Skiplist.resize temp fuel m this old_size new_size p = Some (nullptr, m') ->
  m' = m.
Proof.
  intros Hp H. unfold Skiplist.resize in H.
  destruct (Skiplist.walk_past fuel m _ p) as [lw |]; [| discriminate].
  destruct (negb (Skiplist.curr_block lw =? nullptr)
            && (wrap (p + old_size) =? Skiplist.curr_block lw)).
  - destruct (Skiplist.resize_allocated_block temp m lw p old_size new_size)
      as [mr lwr].
    inversion H. congruence.
  - destruct (old_size <? new_size).
    + now inversion H.
    + destruct (wrap (old_size - new_size) <? MIN_ALLOC_SIZE);
        inversion H; congruence.
Qed.

(** C9.  For a live allocation [p] (non-null, aligned, its block not at
    address 0) and a request [req] whose rounded size differs from the
    stored one: if the in-place resize is refused (returns null) and the
    fallback reserve of the new size fails (returns null), [_realloc]
    returns null and the memory is exactly the memory before the call, so
    the header and payload of the old allocation and the whole free-block
    index are unchanged. *)
Theorem realloc_failed_fallback_leaves_memory
    (fls temp : Z) (fuel : nat) (req p : Z) (m m1 m2 : mem) :
  p <> nullptr ->
  req <> 0 ->
  UNALIGNED p = 0 ->
  wrap (p - MALLOC_HEADER_SIZE) <> nullptr ->
  rounded req <> load m (word_at (wrap (p - MALLOC_HEADER_SIZE)) 0) ->
  Skiplist.resize temp fuel m fls
    (load m (word_at (wrap (p - MALLOC_HEADER_SIZE)) 0)) (rounded req)
    (wrap (p - MALLOC_HEADER_SIZE)) = Some (nullptr, m1) ->
  Skiplist.malloc temp fuel m1 fls (rounded req) = Some (nullptr, m2) ->
  _realloc fls temp fuel req p m = Some (nullptr, m).
Proof.
  intros Hp Hreq Hal Hq Hsz Hres Hmal.
  pose proof (resize_null _ _ _ _ _ _ _ _ Hq Hres) as E1. subst m1.
  pose proof (malloc_null _ _ _ _ _ _ Hmal) as E2. subst m2.
  unfold _realloc.
  destruct (Z.eqb_spec p nullptr) as [E | _]; [contradiction |].
  destruct (Z.eqb_spec req 0) as [E | _]; [contradiction |].
  rewrite Hal. simpl negb. cbv iota.
  destruct (Z.eqb_spec (rounded req)
              (load m (word_at (wrap (p - MALLOC_HEADER_SIZE)) 0)))
    as [E | _]; [contradiction |].
  rewrite Hres. rewrite Z.eqb_refl. rewrite Hmal. rewrite Z.eqb_refl.
  reflexivity.
Qed.

Lemma realloc_failed_fallback_leaves_memory_witness :
  _realloc FLS STACK enough 100 (ARENA + 8) (live_only (fun _ => 0))
  = Some (nullptr, live_only (fun _ => 0)).
Proof.
  apply (realloc_failed_fallback_leaves_memory FLS STACK enough 100
           (ARENA + 8) (live_only (fun _ => 0)) (live_only (fun _ => 0))
           (live_only (fun _ => 0))).
  - vm_compute. discriminate.
  - lia.
  - reflexivity.
  - vm_compute. discriminate.
  - vm_compute. discriminate.
  - reflexivity.
  - reflexivity.
Defined.

(** ** The façade on an exhausted index *)

(** Whatever the request, when [Skiplist::malloc] comes back null [_malloc]
    still executes [p[0] = size] and returns [p + MALLOC_HEADER_SIZE]. *)
Lemma malloc_exhausted_stores_header_at_null
    (fls temp : Z) (fuel : nat) (req : Z) (m m' : mem) :
  req <> 0 ->
  Skiplist.malloc temp fuel m fls (rounded req) = Some (nullptr, m') ->
  _malloc fls temp fuel req m
  = Some (MALLOC_HEADER_SIZE, store m nullptr (rounded req)).
Proof.
  intros Hreq H. pose proof (malloc_null _ _ _ _ _ _ H) as E. subst m'.
  unfold _malloc. destruct (Z.eqb_spec req 0) as [E | _]; [contradiction |].
  rewrite H. reflexivity.
Qed.

(** C1.  [_malloc(0)] returns null and writes nothing, in every state.  On
    an index without any free block, however, [_malloc(4)] does not return
    null: it stores the rounded size 12 at address 0 and returns address 8,
    whereas [_calloc(4)] in the same state returns null and writes
    nothing. *)
Theorem malloc_null_results :
  (forall fls temp fuel m, _malloc fls temp fuel 0 m = Some (nullptr, m))
  /\ (forall bg,
        let m := empty_index bg in
        Skiplist.malloc STACK enough m FLS (rounded 4) = Some (nullptr, m)
        /\ _malloc FLS STACK enough 4 m
           = Some (MALLOC_HEADER_SIZE, store m nullptr 12)
        /\ MALLOC_HEADER_SIZE <> nullptr
        /\ _calloc FLS STACK enough 4 m = Some (nullptr, m)).
Proof.
  split.
  - intros fls temp fuel m. reflexivity.
  - intros bg m. repeat split. discriminate.
Qed.

(** ** The snapshot *)

Section Snapshot.
Variables (m : mem) (temp b : Z).
Hypothesis Htemp : 0 <= temp /\ temp + 20 <= word_modulus.
Hypothesis Hb : 0 <= b /\ b + Skiplist.size m b <= word_modulus.
Hypothesis Hmin : MIN_ALLOC_SIZE <= Skiplist.size m b.
Hypothesis Hdisj : temp + 20 <= b \/ b + Skiplist.size m b <= temp.

Lemma copy_from_snapshot :
  let m1 := Skiplist.copy_from m temp b in
  Skiplist.size m1 temp = Skiplist.size m b
  /\ (forall i, (i < Skiplist.skiplist m b)%nat ->
        Skiplist.next m1 temp i = Skiplist.next m b i)
  /\ (forall a, a < temp \/ temp + 20 <= a -> load m1 a = load m a).
Proof.
  unfold Skiplist.copy_from, for_levels, Skiplist.skiplist.
  set (bs := Skiplist.size m b) in *.
  rewrite (for_loop_cond_inv
             (fun m' => Skiplist.size m' b = bs)
             _ (fun i => (i <? which_skiplist_by_size bs)%nat)).
  - destruct (level_cases bs) as [[E Hr] | [[E Hr] | [[E Hr] | [E Hr]]]];
      rewrite E; simpl for_loop; subst bs; slots;
      (split; [| split]).
    all: try (intros i Hi; destruct i as [| [| [| i]]]; try lia; slots).
    all: try (intros a Ha).
    all: mem_simpl; try reflexivity.
  - intros i m0 HP Hc. apply Nat.ltb_lt in Hc.
    pose proof (which_skiplist_by_size_lt bs) as HL. unfold NUM_FREE_LISTS in HL.
    subst bs. slots.
    mem_simpl. exact HP.
  - intros i m0 HP. unfold Skiplist.skiplist. now rewrite HP.
  - subst bs. slots. mem_simpl. reflexivity.
Qed.

(** [copy_from] never writes the forward pointer of the block's own level,
    nor any above it: those cells of the destination keep what they held. *)
Lemma copy_from_leaves_top_pointer :
  forall i, (Skiplist.skiplist m b <= i < NUM_FREE_LISTS)%nat ->
    Skiplist.next (Skiplist.copy_from m temp b) temp i = Skiplist.next m temp i.
Proof.
  unfold Skiplist.copy_from, for_levels, Skiplist.skiplist, NUM_FREE_LISTS.
  set (bs := Skiplist.size m b) in *.
  rewrite (for_loop_cond_inv
             (fun m' => Skiplist.size m' b = bs)
             _ (fun i => (i <? which_skiplist_by_size bs)%nat)).
  - destruct (level_cases bs) as [[E Hr] | [[E Hr] | [[E Hr] | [E Hr]]]];
      rewrite E; simpl for_loop; subst bs; intros i Hi;
      destruct i as [| [| [| [| i]]]]; try lia;
      slots; mem_simpl; reflexivity.
  - intros i m0 HP Hc. apply Nat.ltb_lt in Hc.
    pose proof (which_skiplist_by_size_lt bs) as HL. unfold NUM_FREE_LISTS in HL.
    subst bs. slots.
    mem_simpl. exact HP.
  - intros i m0 HP. unfold Skiplist.skiplist. now rewrite HP.
  - subst bs. slots. mem_simpl. reflexivity.
Qed.

End Snapshot.

(** C6.  The snapshot of a level-3 block (2048 bytes, all four forward
    pointers set to the block at [ARENA + 4096]) copies the size and
    [next[0..2]] only: [next[3]] of the temporary keeps the word the stack
    held.  [_malloc(40)] then splits the block and the new free block at
    [ARENA + 48] gets that stale word as its [next[3]], while list 0 holds
    the new block and the second block as it should; with a zero in the
    stale word, list 3 ends after the new block and has lost the second
    block. *)
Theorem snapshot_misses_top_pointer :
  forall bg,
    let m := two_large bg in
    let snap := Skiplist.copy_from m STACK ARENA in
    Skiplist.skiplist m ARENA = 3%nat
    /\ Skiplist.next m ARENA 3 = ARENA + 4096
    /\ Skiplist.size snap STACK = 2048
    /\ Skiplist.next snap STACK 0 = ARENA + 4096
    /\ Skiplist.next snap STACK 1 = ARENA + 4096
    /\ Skiplist.next snap STACK 2 = ARENA + 4096
    /\ Skiplist.next snap STACK 3 = bg (Skiplist.next_slot STACK 3)
    /\ match _malloc FLS STACK enough 40 m with
       | Some (_, m') =>
           Skiplist.size m' (ARENA + 48) = 2000
           /\ Skiplist.next m' (ARENA + 48) 3 = bg (Skiplist.next_slot STACK 3)
           /\ free_list enough m' FLS 0
              = [(ARENA + 48, 2000); (ARENA + 4096, 2048)]
       | None => False
       end
    /\ match _malloc FLS STACK enough 40 (two_large (fun _ => 0)) with
       | Some (_, m') =>
           free_list enough m' FLS 0
           = [(ARENA + 48, 2000); (ARENA + 4096, 2048)]
           /\ free_list enough m' FLS 3 = [(ARENA + 48, 2000)]
       | None => False
       end.
Proof.
  intros bg. vm_compute. repeat split; discriminate.
Qed.

(** ** The walker *)

(** [advance_links] moves a link by at most one block, whatever the distance
    to [curr]: the link of level [i] becomes the [next[i]] slot of the block
    it pointed at when that block lies below [curr], and stays as it is
    otherwise. *)
Lemma advance_links_single_step (m : mem) (lw : Skiplist.list_walker) (i : nat) :
  length (Skiplist.links lw) = NUM_FREE_LISTS ->
  (i < NUM_FREE_LISTS)%nat ->
  Skiplist.curr_block (Skiplist.advance_links m lw) = Skiplist.curr_block lw
  /\ Skiplist.link (Skiplist.advance_links m lw) i
     = if load m (Skiplist.link lw i) <? Skiplist.curr_block lw
       then Skiplist.next_slot (load m (Skiplist.link lw i)) i
       else Skiplist.link lw i.
Proof.
  destruct lw as [lvl c l]. unfold NUM_FREE_LISTS. simpl.
  destruct l as [| l0 [| l1 [| l2 [| l3 [| ? ?]]]]]; try discriminate.
  intros _ Hi. unfold Skiplist.advance_links, Skiplist.link.
  destruct i as [| [| [| [| i]]]]; [| | | | lia]; simpl;
  destruct (load m l0 <? c); simpl;
  destruct (load m l1 <? c); simpl;
  destruct (load m l2 <? c); simpl;
  destruct (load m l3 <? c); simpl;
  split; reflexivity.
Qed.

(** C5.  One step of a level-1 walk over the heap with two 8-byte blocks
    between two 32-byte blocks: [curr] goes from the first block to the
    last, and [links[0]] ends on the [next[0]] slot of the first block,
    which holds the 8-byte block at [ARENA + 64], two blocks short of
    [curr].  The first list-0 block at or past [curr] is [curr] itself, so
    the walker property fails after [move_next]. *)
Theorem move_next_leaves_links_behind :
  forall bg,
    let m := two_small_between bg in
    let lw := Skiplist.move_next m (Skiplist.get_walker m FLS 1) in
    Skiplist.curr_block lw = ARENA + 128
    /\ Skiplist.link lw 0 = Skiplist.next_slot ARENA 0
    /\ load m (Skiplist.link lw 0) = ARENA + 64
    /\ first_at_or_past enough m FLS 0 (Skiplist.curr_block lw) = ARENA + 128
    /\ ~ links_caught_up enough m FLS lw.
Proof.
  intros bg m lw.
  assert (H0 : load m (Skiplist.link lw 0) = ARENA + 64) by reflexivity.
  assert (H1 : first_at_or_past enough m FLS 0 (Skiplist.curr_block lw)
               = ARENA + 128) by reflexivity.
  repeat split; try reflexivity.
  intros Hall. specialize (Hall 0%nat).
  rewrite H0, H1 in Hall.
  assert (Hlt : (0 < NUM_FREE_LISTS)%nat) by (unfold NUM_FREE_LISTS; lia).
  specialize (Hall Hlt). vm_compute in Hall. discriminate.
Qed.

(** ** Allocation from the walker's block *)

Section MoveBlock.
Variables (temp : Z) (m : mem) (lw : Skiplist.list_walker) (dest ns : Z).
Let b := Skiplist.curr_block lw.
Let bs := Skiplist.size m b.
Hypothesis Hblock : 0 <= b /\ b + bs <= word_modulus.
Hypothesis Hmin : MIN_ALLOC_SIZE <= bs.
Hypothesis Htemp : 0 <= temp /\ temp + 20 <= word_modulus.
Hypothesis Hdisj : temp + 20 <= b \/ b + bs <= temp.
Hypothesis Hns : MIN_ALLOC_SIZE <= ns < bs.
Hypothesis Hdest : 0 <= dest /\ dest + ns <= word_modulus.
Hypothesis Hdest_temp : temp + 20 <= dest \/ dest + ns <= temp.
Hypothesis Hlinks_out :
  forall i, (i < NUM_FREE_LISTS)%nat ->
    outside (Skiplist.link lw i) dest (dest + ns)
    /\ outside (Skiplist.link lw i) temp (temp + 20).
Hypothesis Hlinks_distinct :
  forall i j, (i < j < NUM_FREE_LISTS)%nat ->
    Skiplist.link lw i <> Skiplist.link lw j.

(** Snapshot the walker's block, then [copy_and_resize] the snapshot to
    [dest] with a smaller size [ns]: [dest] becomes a free block of size
    [ns], the walker's link slots of its levels hold it, and it carries the
    forward pointers that the snapshot copied. *)
Lemma copy_and_resize_smaller :
  let m' :=
    Skiplist.copy_and_resize (Skiplist.copy_from m temp b) lw dest temp ns in
  Skiplist.size m' dest = ns
  /\ (forall i, (i <= which_skiplist_by_size ns)%nat ->
        load m' (Skiplist.link lw i) = dest)
  /\ (forall i, (i <= which_skiplist_by_size ns)%nat ->
        (i < which_skiplist_by_size bs)%nat ->
        Skiplist.next m' dest i = Skiplist.next m b i).
Proof.
  destruct (copy_from_snapshot m temp b Htemp Hblock Hmin Hdisj)
    as (F1 & F2 & F3).
  set (m1 := Skiplist.copy_from m temp b) in *. clearbody m1.
  fold bs in F1.
  unfold Skiplist.copy_and_resize. rewrite F1.
  destruct (Z.eqb_spec ns bs) as [Heq | _]; [lia |].
  cbv zeta. unfold Skiplist.skiplist.
  assert (A1 : Skiplist.size (store m1 (Skiplist.size_slot dest) ns) temp = bs).
  { rewrite <- F1. slots. mem_simpl. reflexivity. }
  assert (A2 : Skiplist.size (store m1 (Skiplist.size_slot dest) ns) dest = ns).
  { slots. mem_simpl. reflexivity. }
  rewrite A1, A2. clear A1 A2.
  destruct (Z.ltb_spec bs ns) as [Hlt | _]; [lia |].
  unfold for_levels. link_facts Hlinks_out Hlinks_distinct.
  destruct (level_cases bs) as [[E Hr] | [[E Hr] | [[E Hr] | [E Hr]]]];
  destruct (level_cases ns)
    as [[E' Hr'] | [[E' Hr'] | [[E' Hr'] | [E' Hr']]]];
  try lia;
  try (assert (Skiplist.next m1 temp 0 = Skiplist.next m b 0)
         by (apply F2; unfold Skiplist.skiplist; fold bs; lia));
  try (assert (Skiplist.next m1 temp 1 = Skiplist.next m b 1)
         by (apply F2; unfold Skiplist.skiplist; fold bs; lia));
  try (assert (Skiplist.next m1 temp 2 = Skiplist.next m b 2)
         by (apply F2; unfold Skiplist.skiplist; fold bs; lia));
  clear F2 F3;
  rewrite E, E'; simpl for_loop; subst bs;
  (split; [| split]).
  all: try (intros i Hi; try intros Hi'; destruct i as [| [| [| [| i]]]]; try lia).
  all: slots; mem_simpl; try reflexivity; try congruence.
Qed.

End MoveBlock.

Section AllocateCurrent.
Variables (temp : Z) (m : mem) (lw : Skiplist.list_walker) (s : Z).
Let b := Skiplist.curr_block lw.
Let bs := Skiplist.size m b.
Hypothesis Hfits : 0 < s <= bs.
Hypothesis Hnowrap : s + MIN_ALLOC_SIZE < word_modulus.
Hypothesis Hblock : 0 <= b /\ b + bs <= word_modulus.
Hypothesis Hmin : MIN_ALLOC_SIZE <= bs.
Hypothesis Htemp : 0 <= temp /\ temp + 20 <= word_modulus.
Hypothesis Hdisj : temp + 20 <= b \/ b + bs <= temp.
Hypothesis Hlinks_out :
  forall i, (i < NUM_FREE_LISTS)%nat ->
    outside (Skiplist.link lw i) b (b + bs)
    /\ outside (Skiplist.link lw i) temp (temp + 20).
Hypothesis Hlinks_distinct :
  forall i j, (i < j < NUM_FREE_LISTS)%nat ->
    Skiplist.link lw i <> Skiplist.link lw j.

Lemma allocate_entire_block_constant_bound :
  Skiplist.allocate_entire_block m lw
  = for_levels 0%nat (fun _ i => (i <=? which_skiplist_by_size bs)%nat)
      (fun i m => store m (Skiplist.link lw i) (Skiplist.next m b i)) m.
Proof.
  unfold Skiplist.allocate_entire_block, for_levels. fold b.
  apply (for_loop_cond_inv (fun m' => Skiplist.size m' b = bs)).
  - intros i m0 HP Hc. apply Nat.leb_le in Hc.
    pose proof (which_skiplist_by_size_lt bs) as HL.
    destruct (Hlinks_out i ltac:(lia)) as [Ho _].
    subst bs. slots. mem_simpl. exact HP.
  - intros i m0 HP. unfold Skiplist.skiplist. now rewrite HP.
  - reflexivity.
Qed.

Lemma allocate_entire_block_unlinks :
  forall i, (i <= which_skiplist_by_size bs)%nat ->
    load (Skiplist.allocate_entire_block m lw) (Skiplist.link lw i)
    = Skiplist.next m b i.
Proof.
  rewrite allocate_entire_block_constant_bound. unfold for_levels.
  link_facts Hlinks_out Hlinks_distinct. subst bs.
  destruct (level_cases (Skiplist.size m b))
    as [[E Hr] | [[E Hr] | [[E Hr] | [E Hr]]]];
    rewrite E; simpl for_loop; intros i Hi;
    destruct i as [| [| [| [| i]]]]; try lia; slots; mem_simpl; reflexivity.
Qed.

Lemma allocate_entire_block_frame :
  forall a,
    (forall i, (i <= which_skiplist_by_size bs)%nat -> a <> Skiplist.link lw i) ->
    load (Skiplist.allocate_entire_block m lw) a = load m a.
Proof.
  intros a Ha. rewrite allocate_entire_block_constant_bound.
  apply for_loop_frame_while.
  intros i m0 Hc. apply Nat.leb_le in Hc.
  apply load_store_other. apply Ha. exact Hc.
Qed.

Lemma allocate_current_split_block :
  s + MIN_ALLOC_SIZE <= bs ->
  let m' := snd (Skiplist.allocate_current temp m lw s) in
  Skiplist.size m' (b + s) = bs - s
  /\ (forall i, (i <= which_skiplist_by_size (bs - s))%nat ->
        load m' (Skiplist.link lw i) = b + s)
  /\ (forall i, (i <= which_skiplist_by_size (bs - s))%nat ->
        (i < which_skiplist_by_size bs)%nat ->
        Skiplist.next m' (b + s) i = Skiplist.next m b i).
Proof.
  intros Hsplit.
  assert (E : snd (Skiplist.allocate_current temp m lw s)
              = Skiplist.copy_and_resize (Skiplist.copy_from m temp b) lw
                  (b + s) temp (bs - s)).
  { destruct (copy_from_snapshot m temp b Htemp Hblock Hmin Hdisj)
      as (F1 & _).
    unfold Skiplist.allocate_current. fold b bs. fold bs in F1. rewrite F1.
    rewrite !wrap_small by (words; lia).
    destruct (Z.ltb_spec bs (s + MIN_ALLOC_SIZE)); [lia | reflexivity]. }
  cbv zeta. rewrite E.
  apply copy_and_resize_smaller; try assumption.
  - subst bs b. words. lia.
  - subst bs b. words. lia.
  - subst bs b. words. lia.
  - intros i Hi. destruct (Hlinks_out i Hi) as [Hb Ht].
    split; [| exact Ht]. unfold outside in *. subst bs b. words. lia.
Qed.

(** C8.  [allocate_current] on the walker's block [b] of size [bs], for a
    request [0 < s <= bs] (the block fits) that does not wrap, a block of
    at least [MIN_ALLOC_SIZE] bytes inside the address space, and link slots
    that are distinct and lie outside the block and the temporary.  The
    caller receives the address of [b] in both cases.  If
    [bs < s + MIN_ALLOC_SIZE] the whole block is consumed: on each of its
    lists [0..level(bs)] the walker's link slot now holds [b]'s successor
    [next[i]], and no other cell is written.  Otherwise the block is split:
    the word at [b + s] is the size [bs - s] of a new free block, which the
    walker's link slots hold on each of its lists [0..level(bs - s)], and
    which carries over the forward pointers of [b] that the snapshot
    copied. *)
Theorem allocate_current_whole_or_split :
  fst (Skiplist.allocate_current temp m lw s) = b
  /\ (bs < s + MIN_ALLOC_SIZE ->
      (forall i, (i <= which_skiplist_by_size bs)%nat ->
         load (snd (Skiplist.allocate_current temp m lw s)) (Skiplist.link lw i)
         = Skiplist.next m b i)
      /\ (forall a,
            (forall i, (i <= which_skiplist_by_size bs)%nat ->
               a <> Skiplist.link lw i) ->
            load (snd (Skiplist.allocate_current temp m lw s)) a = load m a))
  /\ (s + MIN_ALLOC_SIZE <= bs ->
      Skiplist.size (snd (Skiplist.allocate_current temp m lw s)) (b + s)
      = bs - s
      /\ (forall i, (i <= which_skiplist_by_size (bs - s))%nat ->
            load (snd (Skiplist.allocate_current temp m lw s))
              (Skiplist.link lw i) = b + s)
      /\ (forall i, (i <= which_skiplist_by_size (bs - s))%nat ->
            (i < which_skiplist_by_size bs)%nat ->
            Skiplist.next (snd (Skiplist.allocate_current temp m lw s))
              (b + s) i = Skiplist.next m b i)).
Proof.
  split; [apply allocate_current_returns_curr |].
  split.
  - intros Hwhole.
    assert (E : snd (Skiplist.allocate_current temp m lw s)
                = Skiplist.allocate_entire_block m lw).
    { unfold Skiplist.allocate_current. fold b bs.
      rewrite wrap_small by (words; lia).
      destruct (Z.ltb_spec bs (s + MIN_ALLOC_SIZE)); [reflexivity | lia]. }
    rewrite E. split.
    + apply allocate_entire_block_unlinks.
    + apply allocate_entire_block_frame.
  - intros Hsplit. apply allocate_current_split_block. exact Hsplit.
Qed.

End AllocateCurrent.

Lemma allocate_current_whole_or_split_witness :
  fst (Skiplist.allocate_current STACK (small_then_fit (fun _ => 0))
         (Skiplist.get_walker (small_then_fit (fun _ => 0)) FLS 1) 24)
  = Skiplist.curr_block
      (Skiplist.get_walker (small_then_fit (fun _ => 0)) FLS 1)
  /\ Skiplist.size
       (snd (Skiplist.allocate_current STACK (live_then_free (fun _ => 0))
               (Skiplist.get_walker (live_then_free (fun _ => 0)) FLS 1) 48))
       (Skiplist.curr_block
          (Skiplist.get_walker (live_then_free (fun _ => 0)) FLS 1) + 48)
     = Skiplist.size (live_then_free (fun _ => 0))
         (Skiplist.curr_block
            (Skiplist.get_walker (live_then_free (fun _ => 0)) FLS 1))
       - 48.
Proof.
  split.
  - refine (proj1 (allocate_current_whole_or_split STACK
             (small_then_fit (fun _ => 0))
             (Skiplist.get_walker (small_then_fit (fun _ => 0)) FLS 1) 24
             _ _ _ _ _ _ _ _)).
    + vm_compute. split; [reflexivity | discriminate].
    + reflexivity.
    + vm_compute. split; discriminate.
    + vm_compute. discriminate.
    + vm_compute. split; discriminate.
    + right. vm_compute. discriminate.
    + intros i Hi. destruct i as [| [| [| [| i]]]];
        [| | | | unfold NUM_FREE_LISTS in Hi; lia];
        (split; [left | left]); vm_compute; reflexivity.
    + intros i j Hij. unfold NUM_FREE_LISTS in Hij.
      destruct i as [| [| [| i]]]; destruct j as [| [| [| [| j]]]];
        try lia; vm_compute; discriminate.
  - refine (proj1 (proj2 (proj2 (allocate_current_whole_or_split STACK
             (live_then_free (fun _ => 0))
             (Skiplist.get_walker (live_then_free (fun _ => 0)) FLS 1) 48
             _ _ _ _ _ _ _ _)) _)).
    + vm_compute. split; [reflexivity | discriminate].
    + reflexivity.
    + vm_compute. split; discriminate.
    + vm_compute. discriminate.
    + vm_compute. split; discriminate.
    + right. vm_compute. discriminate.
    + intros i Hi. destruct i as [| [| [| [| i]]]];
        [| | | | unfold NUM_FREE_LISTS in Hi; lia];
        (split; [left | left]); vm_compute; reflexivity.
    + intros i j Hij. unfold NUM_FREE_LISTS in Hij.
      destruct i as [| [| [| i]]]; destruct j as [| [| [| [| j]]]];
        try lia; vm_compute; discriminate.
    + vm_compute. discriminate.
Defined.

(** ** In-place resize *)

Section ShrinkInPlace.
Variables (temp : Z) (m : mem) (lw : Skiplist.list_walker).
Variables (allocated_block old_size new_size : Z).
Let b := Skiplist.curr_block lw.
Let bs := Skiplist.size m b.
Let size_diff := old_size - new_size.
Hypothesis Hadjacent : 0 <= allocated_block /\ allocated_block + old_size = b.
Hypothesis Hshrink : 0 <= new_size < old_size.
Hypothesis Hblock : 0 <= b /\ b + bs <= word_modulus.
Hypothesis Hmin : MIN_ALLOC_SIZE <= bs.
Hypothesis Hroom : size_diff + MIN_ALLOC_SIZE <= bs.
Hypothesis Htemp : 0 <= temp /\ temp + 20 <= word_modulus.
Hypothesis Hdisj : temp + 20 <= b \/ b + bs <= temp.
Hypothesis Hdest_temp :
  temp + 20 <= b - size_diff \/ b - size_diff + (bs - size_diff) <= temp.
Hypothesis Hlinks_out :
  forall i, (i < NUM_FREE_LISTS)%nat ->
    outside (Skiplist.link lw i) (b - size_diff)
      (b - size_diff + (bs - size_diff))
    /\ outside (Skiplist.link lw i) temp (temp + 20).
Hypothesis Hlinks_distinct :
  forall i j, (i < j < NUM_FREE_LISTS)%nat ->
    Skiplist.link lw i <> Skiplist.link lw j.

(** The shrink branch of [resize_allocated_block], whenever the free
    neighbour is adjacent and larger than the released bytes by at least
    [MIN_ALLOC_SIZE]: the neighbour's header moves down by
    [old_size - new_size] and its size goes down by the same amount. *)
Lemma resize_allocated_block_shrink :
  let r :=
    Skiplist.resize_allocated_block temp m lw allocated_block old_size
      new_size in
  Skiplist.curr_block (snd r) = b - size_diff
  /\ Skiplist.size (fst r) (b - size_diff) = bs - size_diff
  /\ Skiplist.size (fst r) (b - size_diff) < bs + size_diff.
Proof.
  assert (E : Skiplist.resize_allocated_block temp m lw allocated_block
                old_size new_size
              = (Skiplist.copy_and_resize (Skiplist.copy_from m temp b) lw
                   (b - size_diff) temp (bs - size_diff),
                 Skiplist.set_curr lw (b - size_diff))).
  { destruct (copy_from_snapshot m temp b Htemp Hblock Hmin Hdisj)
      as (F1 & _).
    unfold Skiplist.resize_allocated_block. fold b bs. fold bs in F1.
    destruct Hadjacent as [Hab Hadj].
    rewrite (wrap_small (allocated_block + old_size))
      by (subst bs b size_diff; words; lia).
    rewrite Hadj, Z.eqb_refl. simpl negb. cbv iota.
    destruct (Z.ltb_spec new_size old_size) as [_ | Hge]; [| lia].
    cbv zeta. fold size_diff.
    rewrite (wrap_small size_diff) by (subst bs b size_diff; words; lia).
    rewrite F1.
    rewrite (wrap_small (b - size_diff))
      by (subst bs b size_diff; words; lia).
    rewrite (wrap_small (bs - size_diff))
      by (subst bs b size_diff; words; lia).
    reflexivity. }
  cbv zeta. rewrite E. simpl fst. simpl snd.
  split; [reflexivity |].
  assert (H : Skiplist.size
                (Skiplist.copy_and_resize (Skiplist.copy_from m temp b) lw
                   (b - size_diff) temp (bs - size_diff)) (b - size_diff)
              = bs - size_diff).
  { apply copy_and_resize_smaller; try assumption.
    - subst bs b size_diff. words. lia.
    - subst bs b size_diff. words. lia. }
  rewrite H. subst size_diff. split; [reflexivity | lia].
Qed.

End ShrinkInPlace.

(** C3.  Shrinking the live block at [ARENA] from 48 to 24 bytes with the
    free neighbour of 4048 bytes adjacent at [ARENA + 48]: the neighbour's
    header moves down by 24, to [ARENA + 24], but its size becomes
    4048 - 24 = 4024 instead of growing to 4048 + 24 = 4072. *)
Theorem shrink_in_place_shrinks_neighbor :
  forall bg,
    let m := live_then_free bg in
    let lw := Skiplist.get_walker m FLS (which_skiplist_by_size 48) in
    Skiplist.walk_past enough m lw ARENA = Some lw
    /\ Skiplist.curr_block lw = ARENA + 48
    /\ Skiplist.size m (Skiplist.curr_block lw) = 4048
    /\ let '(m', lw') :=
         Skiplist.resize_allocated_block STACK m lw ARENA 48 24 in
       Skiplist.curr_block lw' = Skiplist.curr_block lw - (48 - 24)
       /\ Skiplist.size m' (Skiplist.curr_block lw') = 4048 - (48 - 24)
       /\ Skiplist.size m' (Skiplist.curr_block lw') <> 4048 + (48 - 24).
Proof.
  intros bg. vm_compute. repeat split; discriminate.
Qed.

(** [Skiplist::resize] hands back its pointer argument or null. *)
Lemma resize_returns (temp : Z) (fuel : nat) (m : mem)
    (this old_size new_size p r : Z) (m' : mem) :
  Skiplist.resize temp fuel m this old_size new_size p = Some (r, m') ->
  r = p \/ r = nullptr.
Proof.
  intros H. unfold Skiplist.resize in H.
  destruct (Skiplist.walk_past fuel m _ p) as [lw |]; [| discriminate].
  destruct (negb (Skiplist.curr_block lw =? nullptr)
            && (wrap (p + old_size) =? Skiplist.curr_block lw)).
  - destruct (Skiplist.resize_allocated_block temp m lw p old_size new_size)
      as [mr lwr].
    inversion H. now left.
  - destruct (old_size <? new_size).
    + inversion H. now right.
    + destruct (wrap (old_size - new_size) <? MIN_ALLOC_SIZE);
        inversion H; now left.
Qed.

(** Whenever the in-place resize succeeds, [_realloc] returns the block
    address [p - MALLOC_HEADER_SIZE] that [Skiplist::resize] returned, with
    the memory [Skiplist::resize] left: no header is written and the user
    pointer is not recomputed. *)
Lemma realloc_in_place_result (fls temp : Z) (fuel : nat) (req p : Z)
    (m m1 : mem) (ret : Z) :
  p <> nullptr ->
  req <> 0 ->
  UNALIGNED p = 0 ->
  rounded req <> load m (word_at (wrap (p - MALLOC_HEADER_SIZE)) 0) ->
  Skiplist.resize temp fuel m fls
    (load m (word_at (wrap (p - MALLOC_HEADER_SIZE)) 0)) (rounded req)
    (wrap (p - MALLOC_HEADER_SIZE)) = Some (ret, m1) ->
  ret <> nullptr ->
  _realloc fls temp fuel req p m = Some (wrap (p - MALLOC_HEADER_SIZE), m1).
Proof.
  intros Hp Hreq Hal Hsz Hres Hret.
  destruct (resize_returns _ _ _ _ _ _ _ _ _ Hres) as [E | E];
    [subst ret | contradiction].
  unfold _realloc.
  destruct (Z.eqb_spec p nullptr) as [E | _]; [contradiction |].
  destruct (Z.eqb_spec req 0) as [E | _]; [contradiction |].
  rewrite Hal. simpl negb. cbv iota.
  destruct (Z.eqb_spec (rounded req)
              (load m (word_at (wrap (p - MALLOC_HEADER_SIZE)) 0)))
    as [E | _]; [contradiction |].
  rewrite Hres.
  destruct (Z.eqb_spec (wrap (p - MALLOC_HEADER_SIZE)) nullptr) as [E | _];
    [contradiction | reflexivity].
Qed.

(** C2.  In-place [_realloc] hands back the block address, not the user
    pointer, and leaves the header alone.  Shrinking the 48-byte allocation
    at [ARENA + 8] to a request of 16 bytes (rounded size 24) returns
    [ARENA] and the header still reads 48, both when the free neighbour is
    adjacent and when there is none (the shrink by 24 >= MIN_ALLOC_SIZE
    that carves a new free block). *)
Theorem realloc_in_place_returns_block_address :
  forall bg,
    rounded 16 = 24
    /\ match _realloc FLS STACK enough 16 (ARENA + 8) (live_then_free bg) with
       | Some (r, m') =>
           r = ARENA /\ r <> ARENA + 8 /\ load m' ARENA = 48
           /\ free_list enough m' FLS 0 = [(ARENA + 24, 4024)]
       | None => False
       end
    /\ match _realloc FLS STACK enough 16 (ARENA + 8) (live_only bg) with
       | Some (r, m') =>
           r = ARENA /\ r <> ARENA + 8 /\ load m' ARENA = 48
           /\ free_list enough m' FLS 0 = [(ARENA + 24, 24)]
       | None => False
       end.
Proof.
  intros bg. vm_compute. repeat split; discriminate.
Qed.

(** ** Conservation of bytes *)

(** C4.  Two public operations that lose bytes of a 4096-byte arena whose
    free and live sizes add up to 4096 beforehand.  [_realloc] shrinking
    the 48-byte block in place leaves 4024 free + 48 live = 4072, and the
    free block now starts inside the live one.  [_malloc(16)] taking the
    24-byte block whole drops the 8-byte block in front of it from list 0:
    0 free + 4088 live. *)
Theorem public_operations_lose_bytes :
  forall bg,
    (let m := live_then_free bg in
     free_bytes enough m FLS + live_bytes m [ARENA] = 4096
     /\ match _realloc FLS STACK enough 16 (ARENA + 8) m with
        | Some (_, m') =>
            free_bytes enough m' FLS + live_bytes m' [ARENA] = 4072
            /\ free_list enough m' FLS 0 = [(ARENA + 24, 4024)]
            /\ load m' ARENA = 48
        | None => False
        end)
    /\ (let m := small_then_fit bg in
        free_bytes enough m FLS + live_bytes m [ARENA + 8; ARENA + 48] = 4096
        /\ match _malloc FLS STACK enough 16 m with
           | Some (p, m') =>
               p = ARENA + 24 + MALLOC_HEADER_SIZE
               /\ free_list enough m' FLS 0 = []
               /\ free_bytes enough m' FLS
                  + live_bytes m' [ARENA + 8; ARENA + 24; ARENA + 48] = 4088
           | None => False
           end).
Proof.
  intros bg. vm_compute. repeat split; discriminate.
Qed.

(** ** Allocate, then free *)

(** C7.  On the heap with free blocks of 8 bytes at [ARENA] and 24 bytes at
    [ARENA + 24] (not adjacent), [_malloc(16)] succeeds with the 24-byte
    block, and freeing the returned pointer at once gives back a list 0
    that holds the 24-byte block only: the 8-byte block is no longer on any
    list. *)
Theorem free_after_malloc_loses_block :
  forall bg,
    let m := small_then_fit bg in
    free_list enough m FLS 0 = [(ARENA, 8); (ARENA + 24, 24)]
    /\ free_list enough m FLS 1 = [(ARENA + 24, 24)]
    /\ match _malloc FLS STACK enough 16 m with
       | Some (p, m1) =>
           p = ARENA + 32
           /\ match _free FLS enough p m1 with
              | Some m2 =>
                  free_list enough m2 FLS 0 = [(ARENA + 24, 24)]
                  /\ free_list enough m2 FLS 1 = [(ARENA + 24, 24)]
                  /\ free_list enough m2 FLS 2 = []
                  /\ free_list enough m2 FLS 3 = []
                  /\ free_list enough m2 FLS 0 <> free_list enough m FLS 0
              | None => False
              end
       | None => False
       end.
Proof.
  intros bg. vm_compute. repeat split; discriminate.
Qed.

(** * Further properties of the code *)

(** ** Rounding and alignment *)

Lemma UNALIGNED_mod (p : Z) : UNALIGNED p = p mod 4.
Proof.
  unfold UNALIGNED, ALIGNMENT_MASK, ALIGNMENT, sizeof_size_t.
  change (4 - 1) with (Z.ones 2). rewrite Z.land_ones by lia. reflexivity.
Qed.

Lemma land_align_mask (x : Z) :
  0 <= x < word_modulus ->
  Z.land x (wrap (Z.lnot ALIGNMENT_MASK)) = 4 * (x / 4).
Proof.
  intros Hx.
  replace (wrap (Z.lnot ALIGNMENT_MASK))
    with (Z.land (Z.ones 32) (Z.lnot (Z.ones 2))) by reflexivity.
  rewrite Z.land_assoc, Z.land_ones by lia.
  change (2 ^ 32) with word_modulus. rewrite Z.mod_small by exact Hx.
  rewrite <- Z.ldiff_land, Z.ldiff_ones_r by lia.
  rewrite Z.shiftr_div_pow2, Z.shiftl_mul_pow2 by lia.
  change (2 ^ 2) with 4. lia.
Qed.

(** X1.  [ROUND_UP_TO_ALIGN] of a request between 1 and the largest one that
    still leaves room for the header is the smallest multiple of
    [ALIGNMENT] that is at least the request; [rounded] adds the header
    without wrapping, so it is aligned and at least
    [MALLOC_HEADER_SIZE + ALIGNMENT]. *)
Theorem ROUND_UP_TO_ALIGN_next_multiple (n : Z) :
  1 <= n <= word_modulus - ALIGNMENT - MALLOC_HEADER_SIZE ->
  ROUND_UP_TO_ALIGN n mod ALIGNMENT = 0
  /\ n <= ROUND_UP_TO_ALIGN n < n + ALIGNMENT
  /\ UNALIGNED (ROUND_UP_TO_ALIGN n) = 0
  /\ rounded n = ROUND_UP_TO_ALIGN n + MALLOC_HEADER_SIZE
  /\ UNALIGNED (rounded n) = 0
  /\ MALLOC_HEADER_SIZE + ALIGNMENT <= rounded n.
Proof.
  unfold ALIGNMENT, MALLOC_HEADER_SIZE, sizeof_size_t.
  rewrite word_modulus_eq. intros Hn.
  assert (E : ROUND_UP_TO_ALIGN n = 4 * ((n - 1) / 4) + 4).
  { unfold ROUND_UP_TO_ALIGN, ALIGNMENT, sizeof_size_t.
    rewrite (wrap_small (n - 1)) by (rewrite word_modulus_eq; lia).
    rewrite land_align_mask by (rewrite word_modulus_eq; lia).
    apply wrap_small. rewrite word_modulus_eq.
    Z.to_euclidean_division_equations. lia. }
  assert (R : rounded n = 4 * ((n - 1) / 4) + 4 + 8).
  { unfold rounded, MALLOC_HEADER_SIZE, sizeof_size_t. rewrite E.
    apply wrap_small. rewrite word_modulus_eq.
    Z.to_euclidean_division_equations. lia. }
  rewrite !UNALIGNED_mod, R, E.
  repeat split; Z.to_euclidean_division_equations; lia.
Qed.

Lemma ROUND_UP_TO_ALIGN_next_multiple_witness :
  rounded 40 = ROUND_UP_TO_ALIGN 40 + MALLOC_HEADER_SIZE.
Proof.
  apply (ROUND_UP_TO_ALIGN_next_multiple 40). vm_compute.
  split; discriminate.
Defined.

(** X2.  A pointer that is not a multiple of [ALIGNMENT] is never
    dereferenced: [_free] returns with the memory as it was, and [_realloc]
    with a non-zero request returns the pointer itself with the memory as
    it was. *)
Theorem misaligned_pointer_is_left_alone
    (fls temp : Z) (fuel : nat) (req p : Z) (m : mem) :
  p mod ALIGNMENT <> 0 ->
  _free fls fuel p m = Some m
  /\ (req <> 0 -> _realloc fls temp fuel req p m = Some (p, m)).
Proof.
  unfold ALIGNMENT, sizeof_size_t. intros Hp.
  assert (Hu : (UNALIGNED p =? 0) = false).
  { apply Z.eqb_neq. rewrite UNALIGNED_mod. exact Hp. }
  assert (Hn : (p =? nullptr) = false).
  { apply Z.eqb_neq. intros E. subst p. apply Hp. reflexivity. }
  split.
  - unfold _free. rewrite Hu. reflexivity.
  - intros Hreq. unfold _realloc. rewrite Hn.
    destruct (Z.eqb_spec req 0) as [E | _]; [contradiction |].
    rewrite Hu. reflexivity.
Qed.

Lemma misaligned_pointer_is_left_alone_witness :
  _free FLS enough (ARENA + 9) (live_only (fun _ => 0))
  = Some (live_only (fun _ => 0)).
Proof.
  apply (misaligned_pointer_is_left_alone FLS STACK enough 16 (ARENA + 9)
           (live_only (fun _ => 0))).
  vm_compute. discriminate.
Defined.

(** ** Sized headers *)

Lemma header_slot_of_user_pointer (p : Z) :
  word_at (wrap (wrap (p + MALLOC_HEADER_SIZE) - MALLOC_HEADER_SIZE)) 0
  = word_at p 0.
Proof.
  unfold word_at, wrap. rewrite Z.mul_0_r, !Z.add_0_r.
  rewrite Z.mod_mod by (rewrite word_modulus_eq; lia).
  rewrite Zminus_mod_idemp_l. f_equal. lia.
Qed.

(** X3.  For a non-zero request, the word that [_free] and [_realloc]
    read at [p - MALLOC_HEADER_SIZE] of the pointer [_malloc] returned is
    the rounded request.  So [_free] passes exactly that size to
    [Skiplist::free], and a [_realloc] whose request rounds to the same
    size returns the pointer with the memory as it was. *)
Theorem malloc_header_read_back
    (fls temp : Z) (fuel fuel' : nat) (req : Z) (m : mem) (r : Z) (m' : mem) :
  req <> 0 ->
  _malloc fls temp fuel req m = Some (r, m') ->
  load m' (word_at (wrap (r - MALLOC_HEADER_SIZE)) 0) = rounded req
  /\ (r <> nullptr -> UNALIGNED r = 0 ->
      _free fls fuel' r m'
      = Skiplist.free fuel' m' fls (rounded req)
          (wrap (r - MALLOC_HEADER_SIZE)))
  /\ (r <> nullptr -> UNALIGNED r = 0 ->
      forall req', req' <> 0 -> rounded req' = rounded req ->
        _realloc fls temp fuel' req' r m' = Some (r, m')).
Proof.
  intros Hreq H. unfold _malloc in H.
  destruct (Z.eqb_spec req 0) as [E | _]; [contradiction |].
  destruct (Skiplist.malloc temp fuel m fls (rounded req)) as [[p m1] |];
    [| discriminate].
  inversion H; subst r m'; clear H.
  assert (Hh : load (store m1 (word_at p 0) (rounded req))
                 (word_at (wrap (wrap (p + MALLOC_HEADER_SIZE)
                                 - MALLOC_HEADER_SIZE)) 0)
               = rounded req).
  { rewrite header_slot_of_user_pointer. apply load_store_same. }
  split; [exact Hh |]. split.
  - intros Hr Hal. unfold _free. rewrite Hal.
    destruct (Z.eqb_spec (wrap (p + MALLOC_HEADER_SIZE)) nullptr)
      as [E | _]; [contradiction |].
    simpl. rewrite Hh. reflexivity.
  - intros Hr Hal req' Hreq' Hsame. unfold _realloc.
    destruct (Z.eqb_spec (wrap (p + MALLOC_HEADER_SIZE)) nullptr)
      as [E | _]; [contradiction |].
    destruct (Z.eqb_spec req' 0) as [E | _]; [contradiction |].
    rewrite Hal. simpl negb. cbv iota.
    rewrite Hh, Hsame, Z.eqb_refl. reflexivity.
Qed.

Lemma malloc_header_read_back_witness :
  load
    (store
       (Skiplist.allocate_entire_block (small_then_fit (fun _ => 0))
          (Skiplist.get_walker (small_then_fit (fun _ => 0)) FLS 1))
       (ARENA + 24) 24)
    (word_at (wrap (ARENA + 32 - MALLOC_HEADER_SIZE)) 0)
  = rounded 16.
Proof.
  refine (proj1 (malloc_header_read_back FLS STACK enough enough 16
                   (small_then_fit (fun _ => 0)) (ARENA + 32) _ _ _)).
  - discriminate.
  - vm_compute. reflexivity.
Defined.

(** Loads after a run of zeroing stores. *)
Lemma zero_words_load (q : Z) (l : list nat) (m : mem) (a : Z) :
  load (fold_left (fun m i => store m (word_at q (Z.of_nat i)) 0) l m) a
  = if existsb (fun i => a =? word_at q (Z.of_nat i)) l then 0 else load m a.
Proof.
  revert m. induction l as [| i l IH]; intros m; simpl.
  - reflexivity.
  - rewrite IH. destruct (existsb _ l) eqn:Hl.
    + now rewrite orb_true_r.
    + rewrite orb_false_r. unfold load, store.
      destruct (a =? word_at q (Z.of_nat i)); reflexivity.
Qed.

(** X4.  When the reserve succeeds with a block that does not wrap,
    [_calloc] returns the block plus the header, the first word holds the
    rounded size, every other word of the block (the second header word
    and the whole payload) is zero, and nothing outside the block is
    written after the reserve. *)
Theorem calloc_zeroes_block
    (fls temp : Z) (fuel : nat) (req : Z) (m : mem) (p : Z) (m1 : mem) :
  req <> 0 ->
  Skiplist.malloc temp fuel m fls (rounded req) = Some (p, m1) ->
  p <> nullptr ->
  MALLOC_HEADER_SIZE < rounded req ->
  0 <= p /\ p + rounded req <= word_modulus ->
  exists m',
    _calloc fls temp fuel req m = Some (p + MALLOC_HEADER_SIZE, m')
    /\ load m' p = rounded req
    /\ (forall k, 1 <= k < rounded req / ALIGNMENT ->
          load m' (p + ALIGNMENT * k) = 0)
    /\ (forall a, outside a p (p + rounded req) -> load m' a = load m1 a).
Proof.
  intros Hreq Hm Hp Hbig [Hp0 Hend].
  unfold MALLOC_HEADER_SIZE, ALIGNMENT, sizeof_size_t in *.
  rewrite word_modulus_eq in *.
  assert (Hw : forall k, 0 <= k -> 4 * k < rounded req ->
                 word_at p k = p + 4 * k).
  { intros k Hk Hlt. unfold word_at, sizeof_size_t.
    apply wrap_small. rewrite word_modulus_eq. lia. }
  assert (Hin : forall i,
             In i (seq 1 (Z.to_nat (rounded req / 4) - 1)) ->
             1 <= Z.of_nat i /\ 4 * Z.of_nat i < rounded req).
  { intros i Hi. apply in_seq in Hi.
    Z.to_euclidean_division_equations. lia. }
  unfold _calloc, MALLOC_HEADER_SIZE, ALIGNMENT, sizeof_size_t.
  destruct (Z.eqb_spec req 0) as [E | _]; [contradiction |].
  rewrite Hm. destruct (Z.eqb_spec p nullptr) as [E | _]; [contradiction |].
  rewrite (wrap_small (p + 2 * 4)) by (rewrite word_modulus_eq; lia).
  rewrite (Hw 0) by lia. replace (p + 4 * 0) with p by lia.
  eexists. split; [reflexivity |]. split; [apply load_store_same |]. split.
  - intros k Hk.
    assert (Hlt : 4 * k < rounded req)
      by (Z.to_euclidean_division_equations; lia).
    rewrite load_store_other by lia.
    rewrite zero_words_load.
    replace (existsb _ _) with true; [reflexivity |].
    symmetry. apply existsb_exists. exists (Z.to_nat k). split.
    + apply in_seq. Z.to_euclidean_division_equations. lia.
    + rewrite Z2Nat.id by lia. rewrite Hw by lia. apply Z.eqb_refl.
  - intros a Ha. unfold outside in Ha.
    rewrite load_store_other by lia.
    rewrite zero_words_load.
    destruct (existsb _ _) eqn:Hex; [| reflexivity].
    apply existsb_exists in Hex. destruct Hex as (i & Hi & Heq).
    apply Z.eqb_eq in Heq. destruct (Hin i Hi) as [H1 H2].
    rewrite Hw in Heq by lia. lia.
Qed.

(** X5.  For a zero request, and whenever the reserve fails, [_calloc]
    returns null and the memory is the memory before the call. *)
Theorem calloc_failure_writes_nothing
    (fls temp : Z) (fuel : nat) (req : Z) (m m1 : mem) :
  req = 0 \/ Skiplist.malloc temp fuel m fls (rounded req) = Some (nullptr, m1) ->
  _calloc fls temp fuel req m = Some (nullptr, m).
Proof.
  intros [E | H]; unfold _calloc.
  - subst req. reflexivity.
  - destruct (Z.eqb_spec req 0) as [E | _]; [reflexivity |].
    pose proof (malloc_null _ _ _ _ _ _ H) as E. subst m1.
    rewrite H. reflexivity.
Qed.

(** ** The walker on its driving list *)

(** X7.  One [move_next] of a walker whose link of the driving level holds
    [curr]: [curr] becomes its successor on that list.  When the successor
    lies above, the link moves to the [next] slot of the old [curr] and
    holds the new one again.  When the list ends (or does not ascend) the
    link stays where it was, still holding the old [curr]. *)
Theorem move_next_driving_link (m : mem) (lw : Skiplist.list_walker) :
  length (Skiplist.links lw) = NUM_FREE_LISTS ->
  (Skiplist.skiplist_num lw < NUM_FREE_LISTS)%nat ->
  load m (Skiplist.link lw (Skiplist.skiplist_num lw)) = Skiplist.curr_block lw ->
  let k := Skiplist.skiplist_num lw in
  let succ := Skiplist.next m (Skiplist.curr_block lw) k in
  let lw' := Skiplist.move_next m lw in
  Skiplist.curr_block lw' = succ
  /\ (Skiplist.curr_block lw < succ ->
      Skiplist.link lw' k = Skiplist.next_slot (Skiplist.curr_block lw) k
      /\ load m (Skiplist.link lw' k) = Skiplist.curr_block lw')
  /\ (succ <= Skiplist.curr_block lw ->
      Skiplist.link lw' k = Skiplist.link lw k
      /\ load m (Skiplist.link lw' k) = Skiplist.curr_block lw).
Proof.
  intros Hlen Hk Hlink k succ lw'.
  pose proof (advance_links_single_step m
                (Skiplist.set_curr lw succ) k Hlen Hk) as [Hc Hl].
  fold k in Hlink.
  change (Skiplist.advance_links m (Skiplist.set_curr lw succ)) with lw'
    in Hc, Hl.
  change (Skiplist.link (Skiplist.set_curr lw succ) k)
    with (Skiplist.link lw k) in Hl.
  change (Skiplist.curr_block (Skiplist.set_curr lw succ)) with succ in Hc, Hl.
  rewrite Hlink in Hl.
  split; [exact Hc |]. split.
  - intros Hlt. apply Z.ltb_lt in Hlt. rewrite Hlt in Hl.
    split; [exact Hl |]. rewrite Hl, Hc. reflexivity.
  - intros Hge. apply Z.ltb_ge in Hge. rewrite Hge in Hl.
    split; [exact Hl |]. rewrite Hl. exact Hlink.
Qed.

Lemma move_next_driving_link_witness :
  Skiplist.curr_block
    (Skiplist.move_next (two_small_between (fun _ => 0))
       (Skiplist.get_walker (two_small_between (fun _ => 0)) FLS 1))
  = Skiplist.next (two_small_between (fun _ => 0))
      (Skiplist.curr_block
         (Skiplist.get_walker (two_small_between (fun _ => 0)) FLS 1))
      (Skiplist.skiplist_num
         (Skiplist.get_walker (two_small_between (fun _ => 0)) FLS 1)).
Proof.
  refine (proj1 (move_next_driving_link (two_small_between (fun _ => 0))
             (Skiplist.get_walker (two_small_between (fun _ => 0)) FLS 1)
             _ _ _)).
  - reflexivity.
  - vm_compute. lia.
  - vm_compute. reflexivity.
Defined.

(** ** The mutators *)

(** As [link_facts], for links that are only known to avoid one range. *)
Ltac link_range_facts Hout Hdist :=
  pose proof (Hout 0%nat ltac:(unfold NUM_FREE_LISTS; lia));
  pose proof (Hout 1%nat ltac:(unfold NUM_FREE_LISTS; lia));
  pose proof (Hout 2%nat ltac:(unfold NUM_FREE_LISTS; lia));
  pose proof (Hout 3%nat ltac:(unfold NUM_FREE_LISTS; lia));
  pose proof (Hdist 0%nat 1%nat ltac:(unfold NUM_FREE_LISTS; lia)
              : differ _ _);
  pose proof (Hdist 0%nat 2%nat ltac:(unfold NUM_FREE_LISTS; lia)
              : differ _ _);
  pose proof (Hdist 0%nat 3%nat ltac:(unfold NUM_FREE_LISTS; lia)
              : differ _ _);
  pose proof (Hdist 1%nat 2%nat ltac:(unfold NUM_FREE_LISTS; lia)
              : differ _ _);
  pose proof (Hdist 1%nat 3%nat ltac:(unfold NUM_FREE_LISTS; lia)
              : differ _ _);
  pose proof (Hdist 2%nat 3%nat ltac:(unfold NUM_FREE_LISTS; lia)
              : differ _ _);
  clear Hout Hdist.

(** The header of a free block of at least [MIN_ALLOC_SIZE] bytes, with one
    forward pointer per level, fits in the block. *)
Lemma header_fits (s : Z) (i : nat) :
  MIN_ALLOC_SIZE <= s -> (i <= which_skiplist_by_size s)%nat ->
  4 + 4 * Z.of_nat i + 4 <= s.
Proof.
  unfold MIN_ALLOC_SIZE. intros Hs Hi.
  destruct (level_cases s) as [[E Hr] | [[E Hr] | [[E Hr] | [E Hr]]]]; lia.
Qed.

Section InsertNewBlock.
Variables (m : mem) (lw : Skiplist.list_walker) (new_block sz : Z).
Hypothesis Hsz : MIN_ALLOC_SIZE <= sz.
Hypothesis Hblock : 0 <= new_block /\ new_block + sz <= word_modulus.
Hypothesis Hlinks_out :
  forall i, (i < NUM_FREE_LISTS)%nat ->
    outside (Skiplist.link lw i) new_block (new_block + sz).
Hypothesis Hlinks_distinct :
  forall i j, (i < j < NUM_FREE_LISTS)%nat ->
    Skiplist.link lw i <> Skiplist.link lw j.

Lemma insert_new_block_constant_bound :
  Skiplist.insert_new_block m lw new_block sz
  = for_levels 0%nat (fun _ i => (i <=? which_skiplist_by_size sz)%nat)
      (fun i m =>
         let m := store m (Skiplist.next_slot new_block i)
                    (load m (Skiplist.link lw i)) in
         store m (Skiplist.link lw i) new_block)
      (store m (Skiplist.size_slot new_block) sz).
Proof.
  unfold Skiplist.insert_new_block, for_levels.
  apply (for_loop_cond_inv (fun m' => Skiplist.size m' new_block = sz)).
  - intros i m0 HP Hc. apply Nat.leb_le in Hc.
    pose proof (header_fits sz i Hsz Hc) as Hf.
    pose proof (which_skiplist_by_size_lt sz) as HL.
    pose proof (Hlinks_out i ltac:(lia)) as Ho.
    cbv zeta. slots. mem_simpl. exact HP.
  - intros i m0 HP. unfold Skiplist.skiplist. now rewrite HP.
  - unfold Skiplist.size, Skiplist.size_slot. apply load_store_same.
Qed.

Lemma insert_new_block_effect :
  let m' := Skiplist.insert_new_block m lw new_block sz in
  Skiplist.size m' new_block = sz
  /\ (forall i, (i <= which_skiplist_by_size sz)%nat ->
        load m' (Skiplist.link lw i) = new_block
        /\ Skiplist.next m' new_block i = load m (Skiplist.link lw i))
  /\ (forall a, outside a new_block (new_block + sz) ->
        (forall i, (i <= which_skiplist_by_size sz)%nat ->
           a <> Skiplist.link lw i) ->
        load m' a = load m a).
Proof.
  cbv zeta. rewrite insert_new_block_constant_bound. split; [| split].
  - unfold for_levels. link_range_facts Hlinks_out Hlinks_distinct.
    destruct (level_cases sz) as [[E Hr] | [[E Hr] | [[E Hr] | [E Hr]]]];
      rewrite E; simpl for_loop; slots; mem_simpl; reflexivity.
  - unfold for_levels. link_range_facts Hlinks_out Hlinks_distinct.
    destruct (level_cases sz) as [[E Hr] | [[E Hr] | [[E Hr] | [E Hr]]]];
      rewrite E; simpl for_loop; intros i Hi;
      destruct i as [| [| [| [| i]]]]; try lia;
      (split; slots; mem_simpl; reflexivity).
  - intros a Ha Hnl. unfold for_levels.
    rewrite for_loop_frame_while.
    + unfold Skiplist.size_slot. apply load_store_other.
      unfold outside in Ha. words. lia.
    + intros i m0 Hc. apply Nat.leb_le in Hc.
      pose proof (header_fits sz i Hsz Hc) as Hf.
      cbv zeta. rewrite load_store_other by (apply Hnl; exact Hc).
      apply load_store_other. slots. unfold outside in Ha. lia.
Qed.

(** X8.  [insert_new_block] splices the block in front of whatever each
    link held, on the lists of its size class, and writes nothing else
    outside the block. *)
Theorem insert_new_block_splices :
  let m' := Skiplist.insert_new_block m lw new_block sz in
  Skiplist.size m' new_block = sz
  /\ (forall i, (i <= which_skiplist_by_size sz)%nat ->
        load m' (Skiplist.link lw i) = new_block
        /\ Skiplist.next m' new_block i = load m (Skiplist.link lw i))
  /\ (forall a, outside a new_block (new_block + sz) ->
        (forall i, (i <= which_skiplist_by_size sz)%nat ->
           a <> Skiplist.link lw i) ->
        load m' a = load m a).
Proof. exact insert_new_block_effect. Qed.

End InsertNewBlock.

Section ExpandEntry.
Variables (m : mem) (lw : Skiplist.list_walker) (entry expand_amt : Z).
Let es := Skiplist.size m entry.
Hypothesis Hes : MIN_ALLOC_SIZE <= es.
Hypothesis Hamt : 0 <= expand_amt.
Hypothesis Hblock : 0 <= entry /\ entry + es + expand_amt <= word_modulus.
Hypothesis Hsmall : es + expand_amt < word_modulus.
Hypothesis Hlinks_out :
  forall i, (which_skiplist_by_size es < i < NUM_FREE_LISTS)%nat ->
    outside (Skiplist.link lw i) entry (entry + es + expand_amt).
Hypothesis Hlinks_distinct :
  forall i j, (which_skiplist_by_size es < i < j)%nat ->
    (j < NUM_FREE_LISTS)%nat ->
    Skiplist.link lw i <> Skiplist.link lw j.

(** X9.  [expand_entry] adds to the size and threads the entry onto the
    lists its new size class adds, above its old level; the forward
    pointers of its old levels stay as they were. *)
Theorem expand_entry_threads_new_levels :
  let m' := Skiplist.expand_entry m lw entry expand_amt in
  Skiplist.size m' entry = es + expand_amt
  /\ (forall i,
        (which_skiplist_by_size es < i
         <= which_skiplist_by_size (es + expand_amt))%nat ->
        load m' (Skiplist.link lw i) = entry
        /\ Skiplist.next m' entry i = load m (Skiplist.link lw i))
  /\ (forall i, (i <= which_skiplist_by_size es)%nat ->
        Skiplist.next m' entry i = Skiplist.next m entry i).
Proof.
  cbv zeta. unfold Skiplist.expand_entry, Skiplist.skiplist. fold es.
  rewrite (wrap_small (es + expand_amt)) by (words; lia).
  replace (Skiplist.size
             (store m (Skiplist.size_slot entry) (es + expand_amt)) entry)
    with (es + expand_amt)
    by (unfold Skiplist.size, Skiplist.size_slot;
        now rewrite load_store_same).
  unfold for_levels.
  destruct (level_cases es) as [[E Hr] | [[E Hr] | [[E Hr] | [E Hr]]]];
  destruct (level_cases (es + expand_amt))
    as [[E' Hr'] | [[E' Hr'] | [[E' Hr'] | [E' Hr']]]];
  try lia;
  try (pose proof (Hlinks_out 1%nat ltac:(unfold NUM_FREE_LISTS; lia)));
  try (pose proof (Hlinks_out 2%nat ltac:(unfold NUM_FREE_LISTS; lia)));
  try (pose proof (Hlinks_out 3%nat ltac:(unfold NUM_FREE_LISTS; lia)));
  try (pose proof (Hlinks_distinct 1%nat 2%nat ltac:(lia)
                     ltac:(unfold NUM_FREE_LISTS; lia) : differ _ _));
  try (pose proof (Hlinks_distinct 1%nat 3%nat ltac:(lia)
                     ltac:(unfold NUM_FREE_LISTS; lia) : differ _ _));
  try (pose proof (Hlinks_distinct 2%nat 3%nat ltac:(lia)
                     ltac:(unfold NUM_FREE_LISTS; lia) : differ _ _));
  clear Hlinks_out Hlinks_distinct;
  rewrite E, E'; simpl for_loop; subst es;
  (split; [| split]).
  all: try (intros i Hi; destruct i as [| [| [| [| i]]]]; try lia).
  all: try split.
  all: slots; mem_simpl; reflexivity.
Qed.

End ExpandEntry.

Section CoalesceWithCurrent.
Variables (m : mem) (lw : Skiplist.list_walker) (entry sz : Z).
Let c := Skiplist.curr_block lw.
Let cs := Skiplist.size m c.
Hypothesis Hsz : 0 < sz.
Hypothesis Hadjacent : 0 < entry /\ entry + sz = c.
Hypothesis Hcs : MIN_ALLOC_SIZE <= cs.
Hypothesis Hblock : c + cs <= word_modulus.
Hypothesis Hlinks_out :
  forall i, (i < NUM_FREE_LISTS)%nat ->
    outside (Skiplist.link lw i) entry (c + cs).
Hypothesis Hlinks_distinct :
  forall i j, (i < j < NUM_FREE_LISTS)%nat ->
    Skiplist.link lw i <> Skiplist.link lw j.

Lemma insert_and_coalesce_effect :
  let r := Skiplist.insert_and_coalesce_with_current m lw entry sz in
  Skiplist.curr_block (snd r) = entry
  /\ Skiplist.size (fst r) entry = sz + cs
  /\ (forall i, (i <= which_skiplist_by_size (sz + cs))%nat ->
        load (fst r) (Skiplist.link lw i) = entry)
  /\ (forall i, (i <= which_skiplist_by_size cs)%nat ->
        Skiplist.next (fst r) entry i = Skiplist.next m c i)
  /\ (forall i,
        (which_skiplist_by_size cs < i
         <= which_skiplist_by_size (sz + cs))%nat ->
        Skiplist.next (fst r) entry i = load m (Skiplist.link lw i)).
Proof.
  cbv zeta. unfold Skiplist.insert_and_coalesce_with_current.
  fold c. fold cs. simpl fst. simpl snd.
  split; [reflexivity |].
  destruct Hadjacent as [He Hadj].
  rewrite (wrap_small (sz + cs)) by (subst cs c; words; lia).
  unfold Skiplist.skiplist.
  replace (Skiplist.size (store m (Skiplist.size_slot entry) (sz + cs)) c)
    with cs
    by (subst cs; unfold Skiplist.size, Skiplist.size_slot;
        rewrite load_store_other by (subst c; lia); reflexivity).
  replace (Skiplist.size (store m (Skiplist.size_slot entry) (sz + cs)) entry)
    with (sz + cs)
    by (unfold Skiplist.size, Skiplist.size_slot;
        now rewrite load_store_same).
  unfold for_levels. link_range_facts Hlinks_out Hlinks_distinct.
  destruct (level_cases cs) as [[E Hr] | [[E Hr] | [[E Hr] | [E Hr]]]];
  destruct (level_cases (sz + cs))
    as [[E' Hr'] | [[E' Hr'] | [[E' Hr'] | [E' Hr']]]];
  try lia;
  rewrite E, E'; simpl for_loop; subst cs c;
  (split; [| split; [| split]]).
  all: try (intros i Hi; destruct i as [| [| [| [| i]]]]; try lia).
  all: slots; mem_simpl; reflexivity.
Qed.

(** X11.  [insert_and_coalesce_with_current] turns the freed bytes and the
    free block right after them into one block at the freed address: the
    sizes add up, the merged block takes over the forward pointers of the
    old one, is threaded onto the lists its size class adds, and every link
    of its levels holds it. *)
Theorem insert_and_coalesce_merges :
  let r := Skiplist.insert_and_coalesce_with_current m lw entry sz in
  Skiplist.curr_block (snd r) = entry
  /\ Skiplist.size (fst r) entry = sz + cs
  /\ (forall i, (i <= which_skiplist_by_size (sz + cs))%nat ->
        load (fst r) (Skiplist.link lw i) = entry)
  /\ (forall i, (i <= which_skiplist_by_size cs)%nat ->
        Skiplist.next (fst r) entry i = Skiplist.next m c i)
  /\ (forall i,
        (which_skiplist_by_size cs < i
         <= which_skiplist_by_size (sz + cs))%nat ->
        Skiplist.next (fst r) entry i = load m (Skiplist.link lw i)).
Proof. exact insert_and_coalesce_effect. Qed.

End CoalesceWithCurrent.

Section ExpandInPlace.
Variables (temp : Z) (m : mem) (lw : Skiplist.list_walker).
Variables (allocated_block old_size new_size : Z).
Let b := Skiplist.curr_block lw.
Let bs := Skiplist.size m b.
Let size_diff := new_size - old_size.
Hypothesis Hadjacent : 0 <= allocated_block /\ allocated_block + old_size = b.
Hypothesis Hexpand : 0 < old_size < new_size.
Hypothesis Hroom : size_diff <= bs.
Hypothesis Hblock : 0 <= b /\ b + bs <= word_modulus.
Hypothesis Hmin : MIN_ALLOC_SIZE <= bs.
Hypothesis Htemp : 0 <= temp /\ temp + 20 <= word_modulus.
Hypothesis Hdisj : temp + 20 <= b \/ b + bs <= temp.
Hypothesis Hlinks_out :
  forall i, (i < NUM_FREE_LISTS)%nat ->
    outside (Skiplist.link lw i) b (b + bs)
    /\ outside (Skiplist.link lw i) temp (temp + 20).
Hypothesis Hlinks_distinct :
  forall i j, (i < j < NUM_FREE_LISTS)%nat ->
    Skiplist.link lw i <> Skiplist.link lw j.

Lemma resize_allocated_block_expand_effect :
  let r :=
    Skiplist.resize_allocated_block temp m lw allocated_block old_size
      new_size in
  (bs - size_diff < MIN_ALLOC_SIZE ->
     Skiplist.curr_block (snd r) = b
     /\ forall i, (i <= which_skiplist_by_size bs)%nat ->
          load (fst r) (Skiplist.link lw i) = Skiplist.next m b i)
  /\ (MIN_ALLOC_SIZE <= bs - size_diff ->
      Skiplist.curr_block (snd r) = b + size_diff
      /\ Skiplist.size (fst r) (b + size_diff) = bs - size_diff
      /\ new_size + Skiplist.size (fst r) (b + size_diff) = old_size + bs
      /\ forall i, (i <= which_skiplist_by_size (bs - size_diff))%nat ->
           load (fst r) (Skiplist.link lw i) = b + size_diff).
Proof.
  destruct Hadjacent as [Hab Hadj].
  assert (Hd : wrap (new_size - old_size) = size_diff)
    by (apply wrap_small; subst size_diff bs b; words; lia).
  assert (Hbd : wrap (bs - size_diff) = bs - size_diff)
    by (apply wrap_small; subst size_diff bs b; words; lia).
  assert (E0 : Skiplist.resize_allocated_block temp m lw allocated_block
                 old_size new_size
               = if bs - size_diff <? MIN_ALLOC_SIZE
                 then (Skiplist.allocate_entire_block m lw, lw)
                 else (Skiplist.copy_and_resize
                         (Skiplist.copy_from m temp b) lw
                         (wrap (b + size_diff)) temp (bs - size_diff),
                       Skiplist.set_curr lw (wrap (b + size_diff)))).
  { destruct (copy_from_snapshot m temp b Htemp Hblock Hmin Hdisj)
      as (F1 & _).
    unfold Skiplist.resize_allocated_block. fold b bs. fold bs in F1.
    rewrite (wrap_small (allocated_block + old_size))
      by (subst bs b size_diff; words; lia).
    rewrite Hadj, Z.eqb_refl. simpl negb. cbv iota.
    destruct (Z.ltb_spec new_size old_size) as [Hlt | _]; [lia |].
    cbv zeta. rewrite Hd, Hbd, F1, Hbd. reflexivity. }
  cbv zeta. rewrite E0. split.
  - intros Hsmall.
    destruct (Z.ltb_spec (bs - size_diff) MIN_ALLOC_SIZE) as [_ | Hge];
      [| lia].
    simpl fst. simpl snd. split; [reflexivity |].
    apply (allocate_entire_block_unlinks temp m lw 0); try assumption.
    words. lia.
  - intros Hbig.
    destruct (Z.ltb_spec (bs - size_diff) MIN_ALLOC_SIZE) as [Hlt | _];
      [lia |].
    rewrite (wrap_small (b + size_diff))
      by (subst bs b size_diff; words; lia).
    simpl fst. simpl snd. split; [reflexivity |].
    assert (Hns : MIN_ALLOC_SIZE <= bs - size_diff < bs)
      by (subst size_diff; lia).
    assert (Hdest : 0 <= b + size_diff
                    /\ b + size_diff + (bs - size_diff) <= word_modulus)
      by (subst size_diff bs b; words; lia).
    assert (Hdt : temp + 20 <= b + size_diff
                  \/ b + size_diff + (bs - size_diff) <= temp)
      by (subst size_diff bs b; words; lia).
    assert (Hlo : forall i, (i < NUM_FREE_LISTS)%nat ->
              outside (Skiplist.link lw i) (b + size_diff)
                (b + size_diff + (bs - size_diff))
              /\ outside (Skiplist.link lw i) temp (temp + 20)).
    { intros i Hi. destruct (Hlinks_out i Hi) as [Hb Ht].
      split; [| exact Ht]. unfold outside in *.
      subst size_diff bs b. words. lia. }
    destruct (copy_and_resize_smaller temp m lw (b + size_diff)
                (bs - size_diff) Hblock Hmin Htemp Hdisj Hns Hdest Hdt Hlo
                Hlinks_distinct) as (S1 & S2 & _).
    fold b in S1, S2. rewrite S1.
    split; [reflexivity |]. split; [subst size_diff; lia | exact S2].
Qed.

(** X12.  The expand branch of [resize_allocated_block] with the free
    neighbour adjacent and at least as large as the growth.  A remainder
    below [MIN_ALLOC_SIZE] is given away with the block: the neighbour is
    unlinked from its lists.  Otherwise the neighbour's header moves up by
    the growth and its size goes down by the same amount, so the bytes of
    the two blocks together are what they were. *)
Theorem resize_allocated_block_expand :
  let r :=
    Skiplist.resize_allocated_block temp m lw allocated_block old_size
      new_size in
  (bs - size_diff < MIN_ALLOC_SIZE ->
     Skiplist.curr_block (snd r) = b
     /\ forall i, (i <= which_skiplist_by_size bs)%nat ->
          load (fst r) (Skiplist.link lw i) = Skiplist.next m b i)
  /\ (MIN_ALLOC_SIZE <= bs - size_diff ->
      Skiplist.curr_block (snd r) = b + size_diff
      /\ Skiplist.size (fst r) (b + size_diff) = bs - size_diff
      /\ new_size + Skiplist.size (fst r) (b + size_diff) = old_size + bs
      /\ forall i, (i <= which_skiplist_by_size (bs - size_diff))%nat ->
           load (fst r) (Skiplist.link lw i) = b + size_diff).
Proof. exact resize_allocated_block_expand_effect. Qed.

End ExpandInPlace.

Section ShrinkEntry.
Variables (m : mem) (lw : Skiplist.list_walker) (entry shrink_amt : Z).
Let es := Skiplist.size m entry.
Hypothesis Hamt : 0 <= shrink_amt.
Hypothesis Hleft : MIN_ALLOC_SIZE <= es - shrink_amt.
Hypothesis Hblock : 0 < entry /\ entry + es <= word_modulus.
Hypothesis Hlinks_out :
  forall i, (which_skiplist_by_size (es - shrink_amt) < i < NUM_FREE_LISTS)%nat ->
    outside (Skiplist.link lw i) entry (entry + es).
Hypothesis Hlinks_distinct :
  forall i j, (which_skiplist_by_size (es - shrink_amt) < i < j)%nat ->
    (j < NUM_FREE_LISTS)%nat ->
    Skiplist.link lw i <> Skiplist.link lw j.

(** X10.  [shrink_entry] takes the amount off the size and detaches the
    entry from the lists its new size class no longer reaches: each of
    those links gets the entry's successor.  The entry's own forward
    pointers are not touched. *)
Theorem shrink_entry_detaches_upper_levels :
  let m' := Skiplist.shrink_entry m lw entry shrink_amt in
  Skiplist.size m' entry = es - shrink_amt
  /\ (forall i,
        (which_skiplist_by_size (es - shrink_amt) < i
         <= which_skiplist_by_size es)%nat ->
        load m' (Skiplist.link lw i) = Skiplist.next m entry i)
  /\ (forall i, (i <= which_skiplist_by_size es)%nat ->
        Skiplist.next m' entry i = Skiplist.next m entry i).
Proof.
  cbv zeta. unfold Skiplist.shrink_entry, Skiplist.skiplist. fold es.
  rewrite (wrap_small (es - shrink_amt)) by (words; lia).
  replace (Skiplist.size
             (store m (Skiplist.size_slot entry) (es - shrink_amt)) entry)
    with (es - shrink_amt)
    by (unfold Skiplist.size, Skiplist.size_slot;
        now rewrite load_store_same).
  unfold for_levels.
  destruct (level_cases es) as [[E Hr] | [[E Hr] | [[E Hr] | [E Hr]]]];
  destruct (level_cases (es - shrink_amt))
    as [[E' Hr'] | [[E' Hr'] | [[E' Hr'] | [E' Hr']]]];
  try lia;
  try (pose proof (Hlinks_out 1%nat ltac:(unfold NUM_FREE_LISTS; lia)));
  try (pose proof (Hlinks_out 2%nat ltac:(unfold NUM_FREE_LISTS; lia)));
  try (pose proof (Hlinks_out 3%nat ltac:(unfold NUM_FREE_LISTS; lia)));
  try (pose proof (Hlinks_distinct 1%nat 2%nat ltac:(lia)
                     ltac:(unfold NUM_FREE_LISTS; lia) : differ _ _));
  try (pose proof (Hlinks_distinct 1%nat 3%nat ltac:(lia)
                     ltac:(unfold NUM_FREE_LISTS; lia) : differ _ _));
  try (pose proof (Hlinks_distinct 2%nat 3%nat ltac:(lia)
                     ltac:(unfold NUM_FREE_LISTS; lia) : differ _ _));
  clear Hlinks_out Hlinks_distinct;
  rewrite E, E'; simpl for_loop; subst es;
  (split; [| split]).
  all: try (intros i Hi; destruct i as [| [| [| [| i]]]]; try lia).
  all: slots; mem_simpl; reflexivity.
Qed.

End ShrinkEntry.

(** ** The [Skiplist] object and a fresh walker *)

Lemma heads_slot_small (this : Z) (i : nat) :
  0 <= this /\ this + 24 <= word_modulus -> (i < NUM_FREE_LISTS)%nat ->
  Skiplist.heads_slot this i = this + 8 + 4 * Z.of_nat i.
Proof.
  unfold NUM_FREE_LISTS, Skiplist.heads_slot, sizeof_size_t. intros H Hi.
  apply wrap_small. rewrite word_modulus_eq in *. lia.
Qed.

Lemma get_walker_link (m : mem) (this : Z) (k i : nat) :
  (i < NUM_FREE_LISTS)%nat ->
  Skiplist.link (Skiplist.get_walker m this k) i = Skiplist.heads_slot this i.
Proof.
  unfold NUM_FREE_LISTS. intros Hi.
  destruct i as [| [| [| [| i]]]]; try lia; reflexivity.
Qed.

Lemma get_walker_links_distinct (m : mem) (this : Z) (k : nat) :
  0 <= this /\ this + 24 <= word_modulus ->
  forall i j, (i < j < NUM_FREE_LISTS)%nat ->
    Skiplist.link (Skiplist.get_walker m this k) i
    <> Skiplist.link (Skiplist.get_walker m this k) j.
Proof.
  intros H i j Hij. rewrite !get_walker_link by lia.
  rewrite !heads_slot_small by (try assumption; lia). lia.
Qed.

Lemma get_walker_links_outside (m : mem) (this : Z) (k : nat) (lo hi : Z) :
  0 <= this /\ this + 24 <= word_modulus ->
  this + 24 <= lo \/ hi <= this ->
  forall i, (i < NUM_FREE_LISTS)%nat ->
    outside (Skiplist.link (Skiplist.get_walker m this k) i) lo hi.
Proof.
  intros H Hd i Hi. rewrite get_walker_link by lia.
  rewrite heads_slot_small by (try assumption; lia).
  unfold outside, NUM_FREE_LISTS in *. lia.
Qed.

(** ** Requests on an empty size class *)

Lemma calloc_empty_class_fails
    (fls temp : Z) (fuel : nat) (req : Z) (m : mem) :
  Skiplist.heads m fls (which_skiplist_by_size (rounded req)) = nullptr ->
  _calloc fls temp (S fuel) req m = Some (nullptr, m).
Proof.
  intros Hh. unfold _calloc.
  destruct (req =? 0); [reflexivity |].
  unfold Skiplist.malloc. simpl Skiplist.malloc_walk.
  unfold Skiplist.get_walker at 1. simpl Skiplist.curr_block.
  rewrite Hh. reflexivity.
Qed.

(** X6.  [alloc_init] stores the number of bytes between [_ALLOCABLE_MEM]
    and the end of the SRAM, at most [SRAM_SIZE], and links nothing: heads
    that were null stay null, and every [_calloc] after it returns null. *)
Theorem alloc_init_leaves_index_empty
    (DATA_RAM_START ALLOCABLE_MEM ALLOCABLE_MEM_SIZE fls temp : Z) (m : mem) :
  0 <= DATA_RAM_START ->
  DATA_RAM_START <= ALLOCABLE_MEM <= DATA_RAM_START + SRAM_SIZE ->
  DATA_RAM_START + SRAM_SIZE < word_modulus ->
  (forall i, (i < NUM_FREE_LISTS)%nat ->
     Skiplist.heads m fls i = nullptr
     /\ ALLOCABLE_MEM_SIZE <> Skiplist.heads_slot fls i) ->
  let m' := alloc_init DATA_RAM_START ALLOCABLE_MEM ALLOCABLE_MEM_SIZE m in
  load m' ALLOCABLE_MEM_SIZE = DATA_RAM_START + SRAM_SIZE - ALLOCABLE_MEM
  /\ 0 <= load m' ALLOCABLE_MEM_SIZE <= SRAM_SIZE
  /\ (forall i, (i < NUM_FREE_LISTS)%nat -> Skiplist.heads m' fls i = nullptr)
  /\ (forall fuel req, _calloc fls temp (S fuel) req m' = Some (nullptr, m')).
Proof.
  intros H0 Hord Htop Hheads m'.
  assert (Hh : forall i, (i < NUM_FREE_LISTS)%nat ->
                 Skiplist.heads m' fls i = nullptr).
  { intros i Hi. destruct (Hheads i Hi) as [Hn Hd].
    unfold m', alloc_init, Skiplist.heads.
    rewrite load_store_other by (intros E; apply Hd; now rewrite E).
    exact Hn. }
  assert (Hv : load m' ALLOCABLE_MEM_SIZE
               = DATA_RAM_START + SRAM_SIZE - ALLOCABLE_MEM).
  { unfold m', alloc_init. rewrite load_store_same.
    unfold SRAM_SIZE in *. rewrite word_modulus_eq in *.
    rewrite (wrap_small (DATA_RAM_START + 128 * 1024))
      by (rewrite word_modulus_eq; lia).
    apply wrap_small. rewrite word_modulus_eq. lia. }
  split; [exact Hv |]. split; [rewrite Hv; lia |]. split; [exact Hh |].
  intros fuel req. apply calloc_empty_class_fails. apply Hh.
  apply which_skiplist_by_size_lt.
Qed.

(** ** First fit from the head of the request's list *)

Section MallocFirstBlock.
Variables (fls temp : Z) (fuel : nat) (req : Z) (m : mem).
Let sz := rounded req.
Let a := Skiplist.heads m fls (which_skiplist_by_size sz).
Let L := Skiplist.size m a.
Hypothesis Hreq : req <> 0.
Hypothesis Hsz : 0 < sz <= L.
Hypothesis Hblock : 0 < a /\ a + L <= word_modulus.
Hypothesis Hmin : MIN_ALLOC_SIZE <= L.
Hypothesis Htemp : 0 <= temp /\ temp + 20 <= word_modulus.
Hypothesis Hdisj : temp + 20 <= a \/ a + L <= temp.
Hypothesis Hobj : 0 <= fls /\ fls + 24 <= word_modulus.
Hypothesis Hobj_block : fls + 24 <= a \/ a + L <= fls.
Hypothesis Hobj_temp : fls + 24 <= temp \/ temp + 20 <= fls.

Let lw := Skiplist.get_walker m fls (which_skiplist_by_size sz).

Lemma first_block_links_out :
  forall i, (i < NUM_FREE_LISTS)%nat ->
    outside (Skiplist.link lw i) (Skiplist.curr_block lw)
      (Skiplist.curr_block lw + Skiplist.size m (Skiplist.curr_block lw))
    /\ outside (Skiplist.link lw i) temp (temp + 20).
Proof.
  intros i Hi. split; apply get_walker_links_outside; assumption.
Qed.

Lemma first_block_is_chosen :
  Skiplist.malloc temp (S fuel) m fls sz
  = Some (Skiplist.allocate_current temp m lw sz).
Proof.
  unfold Skiplist.malloc. fold lw. cbn [Skiplist.malloc_walk].
  change (Skiplist.curr_block lw) with a.
  destruct (Z.eqb_spec a nullptr) as [E | _];
    [unfold nullptr in E; lia |].
  unfold Skiplist.fits_size. change (Skiplist.curr_block lw) with a.
  fold L. destruct (Z.leb_spec sz L) as [_ | Hlt]; [reflexivity | lia].
Qed.



(** X14.  When the remainder of the first block would be below
    [MIN_ALLOC_SIZE] the whole block goes: every head of its levels is set
    to the block's successor, and the header still holds the rounded
    request, not the size of the block. *)
Theorem malloc_takes_first_block_whole :
  L < sz + MIN_ALLOC_SIZE ->
  sz + MIN_ALLOC_SIZE < word_modulus ->
  a + MALLOC_HEADER_SIZE < word_modulus ->
  exists m',
    _malloc fls temp (S fuel) req m = Some (a + MALLOC_HEADER_SIZE, m')
    /\ load m' a = sz
    /\ (forall i, (i <= which_skiplist_by_size L)%nat ->
          Skiplist.heads m' fls i = Skiplist.next m a i).
Proof.
  intros Hwhole Hnw Huser.
  assert (E : Skiplist.allocate_current temp m lw sz
              = (a, Skiplist.allocate_entire_block m lw)).
  { unfold Skiplist.allocate_current.
    change (Skiplist.curr_block lw) with a. fold L.
    rewrite wrap_small by (words; lia).
    destruct (Z.ltb_spec L (sz + MIN_ALLOC_SIZE)); [reflexivity | lia]. }
  pose proof (allocate_entire_block_unlinks temp m lw sz Hnw
                (conj (Z.lt_le_incl _ _ (proj1 Hblock)) (proj2 Hblock)) Hmin
                Htemp first_block_links_out
                (get_walker_links_distinct m fls _ Hobj)) as S2.
  change (Skiplist.curr_block lw) with a in S2. fold L in S2.
  unfold _malloc. destruct (Z.eqb_spec req 0) as [E0 | _]; [contradiction |].
  fold sz. rewrite first_block_is_chosen, E.
  assert (Ha : word_at a 0 = a).
  { unfold word_at. rewrite Z.mul_0_r, Z.add_0_r. apply wrap_small.
    subst L. words. lia. }
  rewrite Ha.
  rewrite (wrap_small (a + MALLOC_HEADER_SIZE))
    by (unfold MALLOC_HEADER_SIZE, sizeof_size_t in *; subst L; words; lia).
  eexists. split; [reflexivity |]. split; [apply load_store_same |].
  intros i Hi.
  pose proof (which_skiplist_by_size_lt L) as Hl.
  specialize (S2 i Hi). unfold lw in S2.
  rewrite get_walker_link in S2 by lia.
  unfold Skiplist.heads. rewrite load_store_other; [exact S2 |].
  rewrite heads_slot_small by (try assumption; lia).
  unfold NUM_FREE_LISTS in Hl. subst L. lia.
Qed.

End MallocFirstBlock.

(** ** Freeing below every free block *)

Section FreeAtHead.
Variables (fls : Z) (fuel : nat) (m : mem) (sz p : Z).
Let c := Skiplist.heads m fls 0.
Let cs := Skiplist.size m c.
Let lw := Skiplist.get_walker m fls 0.
Hypothesis Hobj : 0 <= fls /\ fls + 24 <= word_modulus.
Hypothesis Hp : 0 < p.

Lemma walk_stops_at_head :
  c = nullptr \/ p < c -> Skiplist.walk_past (S fuel) m lw p = Some lw.
Proof.
  intros H. cbn [Skiplist.walk_past].
  change (Skiplist.curr_block lw) with c.
  destruct H as [E | Hlt].
  - rewrite E. reflexivity.
  - destruct (Z.leb_spec c p); [lia |]. now rewrite andb_false_r.
Qed.

Lemma prev_of_head_link :
  wrap (Skiplist.link lw 0 - Skiplist.offsetof_next) = fls + 4.
Proof.
  unfold lw. rewrite get_walker_link by (unfold NUM_FREE_LISTS; lia).
  rewrite heads_slot_small
    by (try assumption; unfold NUM_FREE_LISTS; lia).
  unfold Skiplist.offsetof_next, sizeof_size_t.
  replace (fls + 8 + 4 * Z.of_nat 0 - 4) with (fls + 4) by (simpl; lia).
  apply wrap_small. rewrite word_modulus_eq in *. lia.
Qed.



(** X16.  Freeing a range below the first free block and not touching it
    puts the range in front: every head of its levels points to it and its
    forward pointers are what the heads held. *)
Theorem free_before_first_block_inserts :
  p < c ->
  wrap (p + sz) <> c ->
  MIN_ALLOC_SIZE <= sz ->
  p + sz <= word_modulus ->
  fls + 24 <= p \/ p + sz <= fls ->
  wrap (fls + 4 + load m (fls + 4)) <> p ->
  exists m',
    Skiplist.free (S fuel) m fls sz p = Some m'
    /\ Skiplist.size m' p = sz
    /\ (forall i, (i <= which_skiplist_by_size sz)%nat ->
          Skiplist.heads m' fls i = p
          /\ Skiplist.next m' p i = Skiplist.heads m fls i).
Proof.
  intros Hlt Hnadj Hsz Hend Hout Hprev.
  unfold Skiplist.free. fold lw.
  rewrite walk_stops_at_head by (now right).
  rewrite prev_of_head_link.
  change (Skiplist.curr_block lw) with c.
  destruct (Z.eqb_spec c nullptr) as [E | _]; [unfold nullptr in E; lia |].
  simpl negb. cbv iota.
  unfold Skiplist.size at 1, Skiplist.size_slot.
  destruct (Z.eqb_spec (wrap (fls + 4 + load m (fls + 4))) p) as [E | _];
    [contradiction |].
  destruct (Z.eqb_spec (wrap (p + sz)) c) as [E | _]; [contradiction |].
  destruct (insert_new_block_effect m lw p sz Hsz
              (conj (Z.lt_le_incl _ _ Hp) Hend)
              (get_walker_links_outside m fls 0 p (p + sz) Hobj Hout)
              (get_walker_links_distinct m fls 0 Hobj)) as (S1 & S2 & _).
  eexists. split; [reflexivity |]. split; [exact S1 |].
  intros i Hi. pose proof (which_skiplist_by_size_lt sz) as Hl.
  destruct (S2 i Hi) as [Sa Sb]. unfold lw in Sa, Sb.
  rewrite get_walker_link in Sa, Sb by lia.
  split; assumption.
Qed.

(** X17.  Freeing the range that ends where the first free block begins
    merges the two: one block at the freed address whose size is the sum,
    which every head of its levels points to and which takes over the
    forward pointers of the old first block. *)
Theorem free_before_first_block_merges :
  0 < sz ->
  p + sz = c ->
  MIN_ALLOC_SIZE <= cs ->
  c + cs <= word_modulus ->
  fls + 24 <= p \/ c + cs <= fls ->
  wrap (fls + 4 + load m (fls + 4)) <> p ->
  exists m',
    Skiplist.free (S fuel) m fls sz p = Some m'
    /\ Skiplist.size m' p = sz + cs
    /\ (forall i, (i <= which_skiplist_by_size (sz + cs))%nat ->
          Skiplist.heads m' fls i = p)
    /\ (forall i, (i <= which_skiplist_by_size cs)%nat ->
          Skiplist.next m' p i = Skiplist.next m c i).
Proof.
  intros Hsz Hadj Hcs Hend Hout Hprev.
  unfold Skiplist.free. fold lw.
  rewrite walk_stops_at_head by (right; lia).
  rewrite prev_of_head_link.
  change (Skiplist.curr_block lw) with c.
  destruct (Z.eqb_spec c nullptr) as [E | _]; [unfold nullptr in E; lia |].
  simpl negb. cbv iota.
  unfold Skiplist.size at 1, Skiplist.size_slot.
  destruct (Z.eqb_spec (wrap (fls + 4 + load m (fls + 4))) p) as [E | _];
    [contradiction |].
  rewrite (wrap_small (p + sz)) by (subst cs; words; lia).
  destruct (Z.eqb_spec (p + sz) c) as [_ | NE]; [| contradiction].
  destruct (insert_and_coalesce_effect m lw p sz Hsz (conj Hp Hadj) Hcs Hend
              (get_walker_links_outside m fls 0 p (c + cs) Hobj Hout)
              (get_walker_links_distinct m fls 0 Hobj))
    as (_ & S1 & S2 & S3 & _).
  change (Skiplist.curr_block lw) with c in S1, S2, S3. fold cs in S1, S2, S3.
  eexists. split; [reflexivity |]. split; [exact S1 |]. split.
  - intros i Hi. pose proof (which_skiplist_by_size_lt (sz + cs)) as Hl.
    specialize (S2 i Hi). unfold lw in S2.
    rewrite get_walker_link in S2 by lia. exact S2.
  - exact S3.
Qed.

End FreeAtHead.


(** ** [Skiplist::resize] with the walker at the head of its list *)

Lemma walk_stops_at_first (m : mem) (fls : Z) (k fuel : nat) (p : Z) :
  Skiplist.heads m fls k = nullptr \/ p < Skiplist.heads m fls k ->
  Skiplist.walk_past (S fuel) m (Skiplist.get_walker m fls k) p
  = Some (Skiplist.get_walker m fls k).
Proof.
  intros H. cbn [Skiplist.walk_past].
  change (Skiplist.curr_block (Skiplist.get_walker m fls k))
    with (Skiplist.heads m fls k).
  destruct H as [E | Hlt].
  - rewrite E. reflexivity.
  - destruct (Z.leb_spec (Skiplist.heads m fls k) p); [lia |].
    now rewrite andb_false_r.
Qed.

Section ResizeAtHead.
Variables (fls temp : Z) (fuel : nat) (m : mem) (old_size new_size p : Z).
Let k := which_skiplist_by_size old_size.
Let c := Skiplist.heads m fls k.
Let cs := Skiplist.size m c.
Let lw := Skiplist.get_walker m fls k.
Hypothesis Hobj : 0 <= fls /\ fls + 24 <= word_modulus.
Hypothesis Hp : 0 < p.
Hypothesis Hold : 0 < old_size /\ p + old_size < word_modulus.
Hypothesis Hnew : 0 < new_size < word_modulus.

Lemma resize_not_adjacent_cases :
  c = nullptr \/ (p < c /\ p + old_size <> c) ->
  Skiplist.resize temp (S fuel) m fls old_size new_size p
  = if old_size <? new_size then Some (nullptr, m)
    else if old_size - new_size <? MIN_ALLOC_SIZE then Some (p, m)
    else Some (p, Skiplist.insert_new_block m lw (p + new_size)
                    (old_size - new_size)).
Proof.
  intros Hc. unfold Skiplist.resize. fold k. fold lw.
  unfold lw. rewrite walk_stops_at_first by (fold c; tauto). fold lw.
  change (Skiplist.curr_block lw) with c.
  rewrite (wrap_small (p + old_size)) by (words; lia).
  assert (Hna : negb (c =? nullptr) && (p + old_size =? c) = false).
  { destruct Hc as [E | [_ NE]].
    - rewrite E. reflexivity.
    - apply andb_false_iff. right. now apply Z.eqb_neq. }
  rewrite Hna.
  destruct (Z.ltb_spec old_size new_size) as [_ | Hle]; [reflexivity |].
  rewrite (wrap_small (old_size - new_size)) by (words; lia).
  rewrite (wrap_small (p + new_size)) by (words; lia).
  reflexivity.
Qed.

(** X19.  Without a free block right after the allocation,
    [Skiplist::resize] refuses to grow it and writes nothing, leaves a
    shrink by less than [MIN_ALLOC_SIZE] as it is, and turns the tail
    released by a larger shrink into a free block that every head of its
    levels points to, leaving the allocation's header as it was. *)
Theorem resize_without_adjacent_block :
  c = nullptr \/ (p < c /\ p + old_size <> c) ->
  (old_size < new_size ->
     Skiplist.resize temp (S fuel) m fls old_size new_size p
     = Some (nullptr, m))
  /\ (new_size <= old_size -> old_size - new_size < MIN_ALLOC_SIZE ->
      Skiplist.resize temp (S fuel) m fls old_size new_size p = Some (p, m))
  /\ (MIN_ALLOC_SIZE <= old_size - new_size ->
      fls + 24 <= p \/ p + old_size <= fls ->
      exists m',
        Skiplist.resize temp (S fuel) m fls old_size new_size p = Some (p, m')
        /\ Skiplist.size m' (p + new_size) = old_size - new_size
        /\ (forall i,
              (i <= which_skiplist_by_size (old_size - new_size))%nat ->
              Skiplist.heads m' fls i = p + new_size
              /\ Skiplist.next m' (p + new_size) i = Skiplist.heads m fls i)
        /\ load m' p = load m p).
Proof.
  intros Hc. rewrite (resize_not_adjacent_cases Hc).
  split; [| split].
  - intros Hlt. apply Z.ltb_lt in Hlt. now rewrite Hlt.
  - intros Hle Hsmall.
    destruct (Z.ltb_spec old_size new_size); [lia |].
    destruct (Z.ltb_spec (old_size - new_size) MIN_ALLOC_SIZE);
      [reflexivity | lia].
  - intros Hbig Hout. unfold MIN_ALLOC_SIZE in *.
    destruct (Z.ltb_spec old_size new_size); [lia |].
    destruct (Z.ltb_spec (old_size - new_size) 8); [lia |].
    assert (Hrange : 0 <= p + new_size
                     /\ p + new_size + (old_size - new_size) <= word_modulus)
      by lia.
    assert (Hout' : fls + 24 <= p + new_size
                    \/ p + new_size + (old_size - new_size) <= fls) by lia.
    destruct (insert_new_block_effect m lw (p + new_size)
                (old_size - new_size) Hbig Hrange
                (get_walker_links_outside m fls k _ _ Hobj Hout')
                (get_walker_links_distinct m fls k Hobj))
      as (S1 & S2 & S3).
    eexists. split; [reflexivity |]. split; [exact S1 |]. split.
    + intros i Hi.
      pose proof (which_skiplist_by_size_lt (old_size - new_size)) as Hl.
      destruct (S2 i Hi) as [Sa Sb]. unfold lw in Sa, Sb.
      rewrite get_walker_link in Sa, Sb by lia. split; assumption.
    + apply S3.
      * unfold outside. lia.
      * intros i Hi.
        pose proof (which_skiplist_by_size_lt (old_size - new_size)) as Hl.
        unfold lw. rewrite get_walker_link by lia.
        rewrite heads_slot_small by (try assumption; lia).
        unfold NUM_FREE_LISTS in Hl. rewrite word_modulus_eq in *. lia.
Qed.

End ResizeAtHead.

Section ResizeIntoNeighbour.
Variables (fls temp : Z) (fuel : nat) (m : mem) (old_size new_size p : Z).
Let k := which_skiplist_by_size old_size.
Let c := Skiplist.heads m fls k.
Let cs := Skiplist.size m c.
Let lw := Skiplist.get_walker m fls k.
Hypothesis Hobj : 0 <= fls /\ fls + 24 <= word_modulus.
Hypothesis Hp : 0 <= p.
Hypothesis Hadjacent : p + old_size = c.
Hypothesis Hgrow : 0 < old_size < new_size.
Hypothesis Hroom : new_size - old_size + MIN_ALLOC_SIZE <= cs.
Hypothesis Hblock : c + cs <= word_modulus.
Hypothesis Htemp : 0 <= temp /\ temp + 20 <= word_modulus.
Hypothesis Hdisj : temp + 20 <= c \/ c + cs <= temp.
Hypothesis Hobj_block : fls + 24 <= c \/ c + cs <= fls.
Hypothesis Hobj_temp : fls + 24 <= temp \/ temp + 20 <= fls.

(** X20.  Growing an allocation whose right neighbour is the first block
    of the walked list and has room: [Skiplist::resize] returns the block
    itself, the neighbour's header moves up by the growth and shrinks by as
    much, and the heads of the neighbour's levels follow it. *)
Theorem resize_grows_into_first_block :
  exists m',
    Skiplist.resize temp (S fuel) m fls old_size new_size p = Some (p, m')
    /\ Skiplist.size m' (c + (new_size - old_size))
       = cs - (new_size - old_size)
    /\ new_size + Skiplist.size m' (c + (new_size - old_size))
       = old_size + cs
    /\ (forall i,
          (i <= which_skiplist_by_size (cs - (new_size - old_size)))%nat ->
          Skiplist.heads m' fls i = c + (new_size - old_size)).
Proof.
  assert (Hc : 0 < c) by lia.
  assert (Hmin : MIN_ALLOC_SIZE <= cs) by (unfold MIN_ALLOC_SIZE in *; lia).
  assert (Hlo : forall i, (i < NUM_FREE_LISTS)%nat ->
            outside (Skiplist.link lw i) (Skiplist.curr_block lw)
              (Skiplist.curr_block lw
               + Skiplist.size m (Skiplist.curr_block lw))
            /\ outside (Skiplist.link lw i) temp (temp + 20)).
  { intros i Hi. split; apply get_walker_links_outside; assumption. }
  destruct (resize_allocated_block_expand_effect temp m lw p old_size new_size
              (conj Hp Hadjacent) Hgrow
              ltac:(change (Skiplist.curr_block lw) with c; fold cs;
                    unfold MIN_ALLOC_SIZE in *; lia)
              (conj (Z.lt_le_incl _ _ Hc) Hblock) Hmin Htemp Hdisj Hlo
              (get_walker_links_distinct m fls k Hobj)) as [_ Hbig].
  change (Skiplist.curr_block lw) with c in Hbig. fold cs in Hbig.
  destruct Hbig as (_ & S1 & S2 & S3); [lia |].
  unfold Skiplist.resize. fold k. fold lw.
  unfold lw. rewrite walk_stops_at_first by (fold c; right; lia). fold lw.
  change (Skiplist.curr_block lw) with c.
  rewrite (wrap_small (p + old_size)) by (subst cs; words; lia).
  rewrite Hadjacent, Z.eqb_refl.
  destruct (Z.eqb_spec c nullptr) as [E | _]; [unfold nullptr in E; lia |].
  simpl negb. simpl andb. cbv iota.
  destruct (Skiplist.resize_allocated_block temp m lw p old_size new_size)
    as [m' lw'].
  simpl fst in S1, S2, S3.
  exists m'. split; [reflexivity |].
  split; [exact S1 |]. split; [exact S2 |].
  intros i Hi.
  pose proof (which_skiplist_by_size_lt (cs - (new_size - old_size))) as Hl.
  specialize (S3 i Hi). unfold lw in S3.
  rewrite get_walker_link in S3 by lia. exact S3.
Qed.

End ResizeIntoNeighbour.

(** ** Freeing above the only free block *)

Section FreeAfterLast.
Variables (fls : Z) (fuel : nat) (m : mem) (sz p : Z).
Let c := Skiplist.heads m fls 0.
Let lw := Skiplist.get_walker m fls 0.
Hypothesis Hobj : 0 <= fls /\ fls + 24 <= word_modulus.
Hypothesis Hheads :
  forall i, (i < NUM_FREE_LISTS)%nat -> 0 <= Skiplist.heads m fls i.
Hypothesis Hc : 0 < c < p.
Hypothesis Hlast : Skiplist.next m c 0 = nullptr.
Hypothesis Hsz : MIN_ALLOC_SIZE <= sz.
Hypothesis Hend : p + sz <= word_modulus.
Hypothesis Hout : fls + 24 <= p \/ p + sz <= fls.
Hypothesis Hprev : wrap (fls + 4 + sz) <> p.



End FreeAfterLast.

(** ** Worked instances *)

(** Closed side conditions of the worked heaps, by evaluation. *)
Ltac by_evaluation :=
  vm_compute; repeat split; try discriminate; try reflexivity.

Ltac each_link :=
  let i := fresh "i" in
  let Hi := fresh "Hi" in
  intros i Hi;
  destruct i as [| [| [| [| i]]]]; vm_compute in Hi; try lia;
  vm_compute; repeat split; try discriminate; try reflexivity;
  try (left; reflexivity); try (right; discriminate).

Ltac each_link_pair :=
  let i := fresh "i" in
  let j := fresh "j" in
  let Hij := fresh "Hij" in
  intros i j Hij;
  destruct i as [| [| [| [| i]]]]; destruct j as [| [| [| [| j]]]];
  vm_compute in Hij; try lia; vm_compute; discriminate.

Lemma insert_new_block_splices_witness :
  Skiplist.size
    (Skiplist.insert_new_block (empty_index blank)
       (Skiplist.get_walker (empty_index blank) FLS 0) ARENA 4096) ARENA
  = 4096.
Proof.
  refine (proj1 (insert_new_block_splices (empty_index blank)
                   (Skiplist.get_walker (empty_index blank) FLS 0) ARENA 4096
                   _ _ _ _)).
  - by_evaluation.
  - by_evaluation.
  - each_link.
  - each_link_pair.
Defined.

Lemma expand_entry_threads_new_levels_witness :
  Skiplist.size
    (Skiplist.expand_entry (small_then_fit blank)
       (Skiplist.get_walker (small_then_fit blank) FLS 0) ARENA 16) ARENA
  = Skiplist.size (small_then_fit blank) ARENA + 16.
Proof.
  refine (proj1 (expand_entry_threads_new_levels (small_then_fit blank)
                   (Skiplist.get_walker (small_then_fit blank) FLS 0)
                   ARENA 16 _ _ _ _ _ _)).
  - by_evaluation.
  - by_evaluation.
  - by_evaluation.
  - by_evaluation.
  - each_link.
  - intros i j Hij Hj.
    destruct i as [| [| [| [| i]]]]; destruct j as [| [| [| [| j]]]];
      vm_compute in Hij, Hj; try lia; vm_compute; discriminate.
Defined.

Lemma insert_and_coalesce_merges_witness :
  Skiplist.size
    (fst (Skiplist.insert_and_coalesce_with_current (live_then_free blank)
            (Skiplist.get_walker (live_then_free blank) FLS 0) ARENA 48))
    ARENA
  = 48 + Skiplist.size (live_then_free blank)
           (Skiplist.curr_block
              (Skiplist.get_walker (live_then_free blank) FLS 0)).
Proof.
  refine (proj1 (proj2 (insert_and_coalesce_merges (live_then_free blank)
                   (Skiplist.get_walker (live_then_free blank) FLS 0)
                   ARENA 48 _ _ _ _ _ _))).
  - by_evaluation.
  - by_evaluation.
  - by_evaluation.
  - by_evaluation.
  - each_link.
  - each_link_pair.
Defined.

Lemma resize_allocated_block_expand_witness :
  Skiplist.curr_block
    (snd (Skiplist.resize_allocated_block STACK (live_then_free blank)
            (Skiplist.get_walker (live_then_free blank) FLS 1) ARENA 48 96))
  = Skiplist.curr_block (Skiplist.get_walker (live_then_free blank) FLS 1)
    + (96 - 48).
Proof.
  refine (proj1 (proj2 (resize_allocated_block_expand STACK
                   (live_then_free blank)
                   (Skiplist.get_walker (live_then_free blank) FLS 1)
                   ARENA 48 96 _ _ _ _ _ _ _ _ _) _)).
  - by_evaluation.
  - by_evaluation.
  - by_evaluation.
  - by_evaluation.
  - by_evaluation.
  - by_evaluation.
  - right. by_evaluation.
  - each_link.
  - each_link_pair.
  - by_evaluation.
Defined.


Lemma malloc_takes_first_block_whole_witness :
  exists m',
    _malloc FLS STACK 1 16 (small_then_fit blank)
    = Some (Skiplist.heads (small_then_fit blank) FLS
              (which_skiplist_by_size (rounded 16)) + MALLOC_HEADER_SIZE, m').
Proof.
  destruct (malloc_takes_first_block_whole FLS STACK 0 16
              (small_then_fit blank)) as (m' & H & _).
  - by_evaluation.
  - by_evaluation.
  - by_evaluation.
  - by_evaluation.
  - by_evaluation.
  - right. by_evaluation.
  - by_evaluation.
  - left. by_evaluation.
  - left. by_evaluation.
  - by_evaluation.
  - by_evaluation.
  - by_evaluation.
  - exists m'. exact H.
Defined.


Lemma free_before_first_block_inserts_witness :
  exists m', Skiplist.free 1 (live_then_free blank) FLS 24 ARENA = Some m'.
Proof.
  destruct (free_before_first_block_inserts FLS 0 (live_then_free blank) 24
              ARENA) as (m' & H & _).
  - by_evaluation.
  - by_evaluation.
  - by_evaluation.
  - by_evaluation.
  - by_evaluation.
  - by_evaluation.
  - left. by_evaluation.
  - by_evaluation.
  - exists m'. exact H.
Defined.

Lemma free_before_first_block_merges_witness :
  exists m', Skiplist.free 1 (live_then_free blank) FLS 48 ARENA = Some m'.
Proof.
  destruct (free_before_first_block_merges FLS 0 (live_then_free blank) 48
              ARENA) as (m' & H & _).
  - by_evaluation.
  - by_evaluation.
  - by_evaluation.
  - by_evaluation.
  - by_evaluation.
  - by_evaluation.
  - left. by_evaluation.
  - by_evaluation.
  - exists m'. exact H.
Defined.


Lemma calloc_zeroes_block_witness :
  exists m',
    _calloc FLS STACK enough 16 (small_then_fit blank)
    = Some (ARENA + 24 + MALLOC_HEADER_SIZE, m').
Proof.
  destruct (calloc_zeroes_block FLS STACK enough 16 (small_then_fit blank)
              (ARENA + 24)
              (Skiplist.allocate_entire_block (small_then_fit blank)
                 (Skiplist.get_walker (small_then_fit blank) FLS 1)))
    as (m' & H & _).
  - by_evaluation.
  - by_evaluation.
  - by_evaluation.
  - by_evaluation.
  - by_evaluation.
  - exists m'. exact H.
Defined.

Lemma calloc_failure_writes_nothing_witness :
  _calloc FLS STACK enough 4 (empty_index blank)
  = Some (nullptr, empty_index blank).
Proof.
  apply (calloc_failure_writes_nothing FLS STACK enough 4 (empty_index blank)
           (empty_index blank)).
  right. reflexivity.
Defined.

Lemma alloc_init_leaves_index_empty_witness :
  load (alloc_init 0x20000000 ARENA (FLS - 4) (empty_index blank)) (FLS - 4)
  = 0x20000000 + SRAM_SIZE - ARENA.
Proof.
  refine (proj1 (alloc_init_leaves_index_empty 0x20000000 ARENA (FLS - 4)
                   FLS STACK (empty_index blank) _ _ _ _)).
  - by_evaluation.
  - by_evaluation.
  - by_evaluation.
  - each_link.
Defined.

Lemma shrink_entry_detaches_upper_levels_witness :
  Skiplist.size
    (Skiplist.shrink_entry (two_large blank)
       (Skiplist.get_walker (two_large blank) FLS 0) ARENA 1048) ARENA
  = Skiplist.size (two_large blank) ARENA - 1048.
Proof.
  refine (proj1 (shrink_entry_detaches_upper_levels (two_large blank)
                   (Skiplist.get_walker (two_large blank) FLS 0) ARENA 1048
                   _ _ _ _ _)).
  - by_evaluation.
  - by_evaluation.
  - by_evaluation.
  - each_link.
  - intros i j Hij Hj.
    destruct i as [| [| [| [| i]]]]; destruct j as [| [| [| [| j]]]];
      vm_compute in Hij, Hj; try lia; vm_compute; discriminate.
Defined.

Lemma resize_without_adjacent_block_witness :
  exists m',
    Skiplist.resize STACK 1 (live_only blank) FLS 48 24 ARENA
    = Some (ARENA, m').
Proof.
  destruct (resize_without_adjacent_block FLS STACK 0 (live_only blank)
              48 24 ARENA) as (_ & _ & H).
  - by_evaluation.
  - by_evaluation.
  - by_evaluation.
  - by_evaluation.
  - left. by_evaluation.
  - destruct H as (m' & H & _).
    + by_evaluation.
    + left. by_evaluation.
    + exists m'. exact H.
Defined.

Lemma resize_grows_into_first_block_witness :
  exists m',
    Skiplist.resize STACK 1 (live_then_free blank) FLS 48 96 ARENA
    = Some (ARENA, m').
Proof.
  destruct (resize_grows_into_first_block FLS STACK 0 (live_then_free blank)
              48 96 ARENA) as (m' & H & _).
  - by_evaluation.
  - by_evaluation.
  - by_evaluation.
  - by_evaluation.
  - by_evaluation.
  - by_evaluation.
  - by_evaluation.
  - right. by_evaluation.
  - left. by_evaluation.
  - left. by_evaluation.
  - exists m'. exact H.
Defined.

